(* ===================================================================== *)
(* MyVector<T> (src/main.cpp): a reference-counted, copy-on-write pair   *)
(* of vectors (values and their names).                                  *)
(*                                                                       *)
(* The class owns three separately allocated objects: the vector of      *)
(* values, the vector of names and a size_t counter.  The embedding      *)
(* keeps a store of the live MyVector objects and one typed heap per     *)
(* kind of allocation; every member function is a computation over that  *)
(* store which either returns, throws, or has no defined behaviour.      *)
(*                                                                       *)
(* Contents: the std::vector operations used; the store and the monad;   *)
(* the member functions; the invariant of the reference counts and what  *)
(* each call does to it; the claims C1 to C10.                           *)
(* ===================================================================== *)

From Stdlib Require Import ZArith String List Lia.
From stdpp Require Import base option list gmap strings.

Local Open Scope Z_scope.

(* --------------------------------------------------------------------- *)
(* std::vector, as far as the class uses it                              *)
(* --------------------------------------------------------------------- *)

Module Std.

(* Content plus capacity; capacity is what reserve() acts on.  Allocation
   always succeeds here: std::bad_alloc is not modelled, and of
   std::length_error only the one reserve() throws for a request beyond
   max_size(). *)
Record vector (A : Type) : Type := Vec { elems : list A; capacity : nat }.
Arguments Vec {A} _ _.
Arguments elems {A} _.
Arguments capacity {A} _.

Definition empty_vector {A} : vector A := Vec [] 0%nat.

(* Copy constructor: same elements in the same order.  The capacity of
   the copy is the number of elements copied. *)
Definition copy {A} (v : vector A) : vector A :=
  Vec (elems v) (length (elems v)).

(* push_back: appends at the end; a full vector first grows, by the
   growth policy [grow] of the library in use. *)
Definition push_back {A} (grow : nat → nat) (v : vector A) (x : A) : vector A :=
  Vec (elems v ++ [x])
      (if (length (elems v) <? capacity v)%nat then capacity v
       else grow (capacity v)).

(* The vector with its capacity raised to n when it is smaller. *)
Definition with_capacity {A} (v : vector A) (n : nat) : vector A :=
  Vec (elems v) (if (capacity v <? n)%nat then n else capacity v).

(* reserve(n): std::length_error when n exceeds max_size(), and then the
   vector is as it was; otherwise the capacity is raised to n when it is
   smaller.  [None] stands for the throw. *)
Definition reserve {A} (max_size : nat) (v : vector A) (n : nat)
    : option (vector A) :=
  if (max_size <? n)%nat then None else Some (with_capacity v n).

(* What the library in use fixes: max_size() of std::vector<T> and of
   std::vector<std::string>, and the what() of the std::length_error that
   reserve throws. *)
Record limits : Type := Limits {
  max_size_values : nat;
  max_size_names : nat;
  reserve_what : string
}.

Definition clear {A} (v : vector A) : vector A := Vec [] (capacity v).

Definition size {A} (v : vector A) : nat := length (elems v).

Definition empty {A} (v : vector A) : bool :=
  match elems v with [] => true | _ => false end.

(* std::find(first, last, x) over a whole sequence, as the offset of
   the iterator it returns: the first position holding x, or the length
   (the end iterator) when every element has been compared unequal. *)
Fixpoint find (l : list string) (x : string) : nat :=
  match l with
  | [] => 0%nat
  | y :: l' => if decide (y = x) then 0%nat else S (find l' x)
  end.

End Std.

(* --------------------------------------------------------------------- *)
(* Store, outcomes and the computation monad                             *)
(* --------------------------------------------------------------------- *)

Definition loc := positive.

(* size_t arithmetic is modulo 2^64. *)
Definition size_t_modulus : Z := 2 ^ 64.
Definition wrap (z : Z) : Z := z mod size_t_modulus.

(* The data members, in declaration order (lines 138-140). *)
Record MyVector : Type := Obj {
  m_values : loc;
  m_names : loc;
  m_ref_count : loc
}.

(* What a returned reference or iterator designates. *)
Inductive lvalue : Type :=
| ElemOf (p : loc) (i : nat)     (* element i of the vector of values at p *)
| NameOf (p : loc) (i : nat)     (* element i of the vector of names at p *)
| Deref (l : lvalue).            (* unary star applied to what l designates *)

Inductive exception : Type :=
| out_of_range (what : string)
| invalid_argument (what : string)
| length_error (what : string).

(* Number of objects in [objs] whose m_ref_count is [pc]. *)
Definition count_handles (objs : gmap loc MyVector) (pc : loc) : nat :=
  size (filter (λ kv : loc * MyVector, m_ref_count kv.2 = pc) objs).

(* 1 when [o] points to the counter [pc], else 0. *)
Definition hits (o : MyVector) (pc : loc) : nat :=
  if decide (m_ref_count o = pc) then 1%nat else 0%nat.

Section Semantics.

Context {T : Type}.

(* Growth policy of std::vector<...>::push_back on a full vector. *)
Variable grow : nat → nat.

(* max_size() of the two vectors, for reserve. *)
Variable lim : Std.limits.

Record state : Type := State {
  objects : gmap loc MyVector;                  (* live MyVector objects *)
  value_vectors : gmap loc (Std.vector T);      (* new std::vector<T> *)
  name_vectors : gmap loc (Std.vector string);  (* new std::vector<string> *)
  counters : gmap loc Z                         (* new size_t *)
}.

Inductive outcome (A : Type) : Type :=
| Returns (a : A) (s : state)
| Throws (e : exception) (s : state)
| Undefined.
Arguments Returns {A} _ _.
Arguments Throws {A} _ _.
Arguments Undefined {A}.

Definition M (A : Type) : Type := state → outcome A.

Definition ret {A} (a : A) : M A := λ s, Returns a s.

Definition bind {A B} (m : M A) (k : A → M B) : M B :=
  λ s, match m s with
       | Returns a s' => k a s'
       | Throws e s' => Throws e s'
       | Undefined => Undefined
       end.

Definition throw {A} (e : exception) : M A := λ s, Throws e s.

Definition undefined {A} : M A := λ _, Undefined.

Notation "x <- m ;; k" := (bind m (λ x, k))
  (at level 100, m at next level, right associativity).
Notation "m ;; k" := (bind m (λ _, k))
  (at level 100, right associativity).

(* -- objects ------------------------------------------------------- *)

Definition read_object (this : loc) : M MyVector :=
  λ s, match objects s !! this with
       | Some o => Returns o s
       | None => Undefined
       end.

Definition write_object (this : loc) (o : MyVector) : M unit :=
  λ s, match objects s !! this with
       | Some _ =>
           Returns tt (State (<[this:=o]> (objects s)) (value_vectors s)
                             (name_vectors s) (counters s))
       | None => Undefined
       end.

(* Beginning and end of an object's lifetime at address [this]. *)
Definition begin_lifetime (this : loc) (o : MyVector) : M unit :=
  λ s, match objects s !! this with
       | Some _ => Undefined
       | None =>
           Returns tt (State (<[this:=o]> (objects s)) (value_vectors s)
                             (name_vectors s) (counters s))
       end.

Definition end_lifetime (this : loc) : M unit :=
  λ s, match objects s !! this with
       | Some _ =>
           Returns tt (State (delete this (objects s)) (value_vectors s)
                             (name_vectors s) (counters s))
       | None => Undefined
       end.

(* -- the three heaps: new, load, store, delete ---------------------- *)

Definition new_values (v : Std.vector T) : M loc :=
  λ s, let p := fresh (dom (value_vectors s)) in
       Returns p (State (objects s) (<[p:=v]> (value_vectors s))
                        (name_vectors s) (counters s)).

Definition load_values (p : loc) : M (Std.vector T) :=
  λ s, match value_vectors s !! p with
       | Some v => Returns v s
       | None => Undefined
       end.

Definition store_values (p : loc) (v : Std.vector T) : M unit :=
  λ s, match value_vectors s !! p with
       | Some _ =>
           Returns tt (State (objects s) (<[p:=v]> (value_vectors s))
                             (name_vectors s) (counters s))
       | None => Undefined
       end.

Definition delete_values (p : loc) : M unit :=
  λ s, match value_vectors s !! p with
       | Some _ =>
           Returns tt (State (objects s) (delete p (value_vectors s))
                             (name_vectors s) (counters s))
       | None => Undefined
       end.

Definition new_names (v : Std.vector string) : M loc :=
  λ s, let p := fresh (dom (name_vectors s)) in
       Returns p (State (objects s) (value_vectors s)
                        (<[p:=v]> (name_vectors s)) (counters s)).

Definition load_names (p : loc) : M (Std.vector string) :=
  λ s, match name_vectors s !! p with
       | Some v => Returns v s
       | None => Undefined
       end.

Definition store_names (p : loc) (v : Std.vector string) : M unit :=
  λ s, match name_vectors s !! p with
       | Some _ =>
           Returns tt (State (objects s) (value_vectors s)
                             (<[p:=v]> (name_vectors s)) (counters s))
       | None => Undefined
       end.

Definition delete_names (p : loc) : M unit :=
  λ s, match name_vectors s !! p with
       | Some _ =>
           Returns tt (State (objects s) (value_vectors s)
                             (delete p (name_vectors s)) (counters s))
       | None => Undefined
       end.

Definition new_counter (c : Z) : M loc :=
  λ s, let p := fresh (dom (counters s)) in
       Returns p (State (objects s) (value_vectors s) (name_vectors s)
                        (<[p:=c]> (counters s))).

Definition load_counter (p : loc) : M Z :=
  λ s, match counters s !! p with
       | Some c => Returns c s
       | None => Undefined
       end.

Definition store_counter (p : loc) (c : Z) : M unit :=
  λ s, match counters s !! p with
       | Some _ =>
           Returns tt (State (objects s) (value_vectors s) (name_vectors s)
                             (<[p:=c]> (counters s)))
       | None => Undefined
       end.

Definition delete_counter (p : loc) : M unit :=
  λ s, match counters s !! p with
       | Some _ =>
           Returns tt (State (objects s) (value_vectors s) (name_vectors s)
                             (delete p (counters s)))
       | None => Undefined
       end.

(* operator[] of std::vector: a reference to element i; no bounds check,
   so an index past the end has no defined behaviour. *)
Definition value_ref (p : loc) (i : nat) : M lvalue :=
  v <- load_values p ;;
  if (i <? Std.size v)%nat then ret (ElemOf p i) else undefined.

Definition name_ref (p : loc) (i : nat) : M lvalue :=
  v <- load_names p ;;
  if (i <? Std.size v)%nat then ret (NameOf p i) else undefined.

(* -- member access through this ------------------------------------ *)

Definition get_values (this : loc) : M loc :=
  o <- read_object this ;; ret (m_values o).
Definition get_names (this : loc) : M loc :=
  o <- read_object this ;; ret (m_names o).
Definition get_ref_count (this : loc) : M loc :=
  o <- read_object this ;; ret (m_ref_count o).

Definition set_values (this : loc) (p : loc) : M unit :=
  o <- read_object this ;; write_object this (Obj p (m_names o) (m_ref_count o)).
Definition set_names (this : loc) (p : loc) : M unit :=
  o <- read_object this ;; write_object this (Obj (m_values o) p (m_ref_count o)).
Definition set_ref_count (this : loc) (p : loc) : M unit :=
  o <- read_object this ;; write_object this (Obj (m_values o) (m_names o) p).

(* ------------------------------------------------------------------- *)
(* The member functions of MyVector<T>                                 *)
(* ------------------------------------------------------------------- *)

(* MyVector() (line 51).  Members are initialised in declaration
   order: m_values, m_names, m_ref_count. *)
Definition ctor (this : loc) : M unit :=
  pv <- new_values Std.empty_vector ;;
  pn <- new_names Std.empty_vector ;;
  pc <- new_counter 1 ;;
  begin_lifetime this (Obj pv pn pc).

(* MyVector(const MyVector &other) (lines 53-56). *)
Definition copy_ctor (this other : loc) : M unit :=
  o <- read_object other ;;
  begin_lifetime this (Obj (m_values o) (m_names o) (m_ref_count o)) ;;
  pc <- get_ref_count this ;;
  c <- load_counter pc ;;
  store_counter pc (wrap (c + 1)).

(* ~MyVector() (lines 58-64). *)
Definition dtor (this : loc) : M unit :=
  pc <- get_ref_count this ;;
  c <- load_counter pc ;;
  store_counter pc (wrap (c - 1)) ;;
  (if decide (wrap (c - 1) = 0) then
     delete_counter pc ;;
     pv <- get_values this ;;
     delete_values pv ;;
     pn <- get_names this ;;
     delete_names pn
   else ret tt) ;;
  end_lifetime this.

(* The class declares no operator=, so [x = y] is the implicitly
   defined copy assignment: the three data members are assigned one by
   one, and nothing else happens. *)
Definition copy_assign (this other : loc) : M unit :=
  o <- read_object other ;;
  set_values this (m_values o) ;;
  set_names this (m_names o) ;;
  set_ref_count this (m_ref_count o).

(* detach() (lines 129-136). *)
Definition detach (this : loc) : M unit :=
  pc <- get_ref_count this ;;
  c <- load_counter pc ;;
  if (1 <? c)%Z then
    store_counter pc (wrap (c - 1)) ;;
    pc' <- new_counter 1 ;;
    set_ref_count this pc' ;;
    pv <- get_values this ;;
    vs <- load_values pv ;;
    pv' <- new_values (Std.copy vs) ;;
    set_values this pv' ;;
    pn <- get_names this ;;
    ns <- load_names pn ;;
    pn' <- new_names (Std.copy ns) ;;
    set_names this pn'
  else ret tt.

(* push_back(value, name) (lines 66-70). *)
Definition push_back (this : loc) (value : T) (name : string) : M unit :=
  detach this ;;
  pv <- get_values this ;;
  vs <- load_values pv ;;
  store_values pv (Std.push_back grow vs value) ;;
  pn <- get_names this ;;
  ns <- load_names pn ;;
  store_names pn (Std.push_back grow ns name).

(* operator[](size_t index) (lines 72-78).  The first component of the
   returned pair is written with a unary star in front of the element. *)
Definition index_mut (this : loc) (index : nat) : M (lvalue * lvalue) :=
  pv <- get_values this ;;
  vs <- load_values pv ;;
  if (Std.size vs <=? index)%nat then
    throw (out_of_range "Index is out of range")
  else
    detach this ;;
    pv' <- get_values this ;;
    e <- value_ref pv' index ;;
    pn' <- get_names this ;;
    n <- name_ref pn' index ;;
    ret (Deref e, n).

(* operator[](size_t index) const (lines 80-85). *)
Definition index_const (this : loc) (index : nat) : M (lvalue * lvalue) :=
  pv <- get_values this ;;
  vs <- load_values pv ;;
  if (Std.size vs <=? index)%nat then
    throw (out_of_range "Index is out of range")
  else
    e <- value_ref pv index ;;
    pn <- get_names this ;;
    n <- name_ref pn index ;;
    ret (e, n).

(* operator[](const std::string &name) const (lines 91-97).  [iter] is
   the offset of the iterator std::find returns; the end iterator is the
   offset equal to the size. *)
Definition name_const (this : loc) (name : string) : M lvalue :=
  pn <- get_names this ;;
  ns <- load_names pn ;;
  let iter := Std.find (Std.elems ns) name in
  if decide (iter = Std.size ns) then
    throw (invalid_argument (name +:+ " is not found in the MyVector"))
  else
    pv <- get_values this ;;
    value_ref pv iter.

(* const_cast<T &>: the same object, now writable. *)
Definition const_cast (l : lvalue) : lvalue := l.

(* operator[](const std::string &name) (lines 87-89). *)
Definition name_mut (this : loc) (name : string) : M lvalue :=
  r <- name_const this name ;;
  ret (const_cast r).

(* Iterators into the vector of values: the vector and a position. *)
Definition iterator : Type := loc * nat.

(* begin() (lines 99-102), cbegin() (line 104). *)
Definition begin (this : loc) : M iterator :=
  detach this ;;
  pv <- get_values this ;;
  _ <- load_values pv ;;
  ret (pv, 0%nat).

Definition cbegin (this : loc) : M iterator :=
  pv <- get_values this ;;
  _ <- load_values pv ;;
  ret (pv, 0%nat).

(* end() (lines 106-109), cend() (line 111).  [end] is a keyword here, so
   end() is [end_]. *)
Definition end_ (this : loc) : M iterator :=
  detach this ;;
  pv <- get_values this ;;
  vs <- load_values pv ;;
  ret (pv, Std.size vs).

Definition cend (this : loc) : M iterator :=
  pv <- get_values this ;;
  vs <- load_values pv ;;
  ret (pv, Std.size vs).

(* empty() (line 113), size() (line 115). *)
Definition empty (this : loc) : M bool :=
  pv <- get_values this ;;
  vs <- load_values pv ;;
  ret (Std.empty vs).

Definition size (this : loc) : M nat :=
  pv <- get_values this ;;
  vs <- load_values pv ;;
  ret (Std.size vs).

(* std::vector::reserve(n) on the vector of values at [p] and on the
   vector of names at [p]. *)
Definition reserve_values (p : loc) (n : nat) : M unit :=
  vs <- load_values p ;;
  match Std.reserve (Std.max_size_values lim) vs n with
  | Some vs' => store_values p vs'
  | None => throw (length_error (Std.reserve_what lim))
  end.

Definition reserve_names (p : loc) (n : nat) : M unit :=
  ns <- load_names p ;;
  match Std.reserve (Std.max_size_names lim) ns n with
  | Some ns' => store_names p ns'
  | None => throw (length_error (Std.reserve_what lim))
  end.

(* reserve(n) (lines 117-120). *)
Definition reserve (this : loc) (n : nat) : M unit :=
  pv <- get_values this ;;
  reserve_values pv n ;;
  pn <- get_names this ;;
  reserve_names pn n.

(* clear() (lines 122-126). *)
Definition clear (this : loc) : M unit :=
  detach this ;;
  pv <- get_values this ;;
  vs <- load_values pv ;;
  store_values pv (Std.clear vs) ;;
  pn <- get_names this ;;
  ns <- load_names pn ;;
  store_names pn (Std.clear ns).

(* ------------------------------------------------------------------- *)
(* What a caller does with the references it is handed                 *)
(* ------------------------------------------------------------------- *)

(* Assignment of a value through a T&.  The object a unary star yields
   is not kept in this store, so only element references are written. *)
Definition assign_value (l : lvalue) (x : T) : M unit :=
  match l with
  | ElemOf p i =>
      vs <- load_values p ;;
      if (i <? Std.size vs)%nat then
        store_values p (Std.Vec (<[i:=x]> (Std.elems vs)) (Std.capacity vs))
      else undefined
  | _ => undefined
  end.

(* Assignment of a name through a std::string&. *)
Definition assign_name (l : lvalue) (x : string) : M unit :=
  match l with
  | NameOf p i =>
      ns <- load_names p ;;
      if (i <? Std.size ns)%nat then
        store_names p (Std.Vec (<[i:=x]> (Std.elems ns)) (Std.capacity ns))
      else undefined
  | _ => undefined
  end.

(* Reading through a reference to an element.  What a unary star yields
   depends on T alone and is not part of this store. *)
Definition read_value (s : state) (l : lvalue) : option T :=
  match l with
  | ElemOf p i => v ← value_vectors s !! p; Std.elems v !! i
  | _ => None
  end.

Definition read_name (s : state) (l : lvalue) : option string :=
  match l with
  | NameOf p i => v ← name_vectors s !! p; Std.elems v !! i
  | _ => None
  end.

(* ------------------------------------------------------------------- *)
(* Observations used in the statements                                 *)
(* ------------------------------------------------------------------- *)

(* The values and names readable through the handle at [this]. *)
Definition contents (s : state) (this : loc) : option (list T * list string) :=
  o ← objects s !! this;
  vs ← value_vectors s !! m_values o;
  ns ← name_vectors s !! m_names o;
  Some (Std.elems vs, Std.elems ns).

(* The value of the counter the handle at [this] points to. *)
Definition ref_count (s : state) (this : loc) : option Z :=
  o ← objects s !! this;
  counters s !! m_ref_count o.

(* Number of live handles whose m_ref_count is [pc]. *)
Definition handles_on (s : state) (pc : loc) : nat :=
  count_handles (objects s) pc.

Definition initial_state : state := State ∅ ∅ ∅ ∅.

End Semantics.

Notation "x <- m ;; k" := (bind m (λ x, k))
  (at level 100, m at next level, right associativity).
Notation "m ;; k" := (bind m (λ _, k))
  (at level 100, right associativity).

Arguments state : clear implicits.
Arguments outcome : clear implicits.
Arguments M : clear implicits.
Arguments State {T} _ _ _ _.
Arguments Returns {T A} _ _.
Arguments Throws {T A} _ _.
Arguments Undefined {T A}.

(* The non-const lookup by name as the specification words it, for
   comparison with [name_mut]: the name is looked up on the store as it is,
   the handle detaches only when there is a match, and the reference
   returned is to the found position in the block the handle then owns. *)
Definition name_mut_as_specified {T} (this : loc) (name : string)
    : M T lvalue :=
  pn <- get_names this ;;
  ns <- load_names pn ;;
  let iter := Std.find (Std.elems ns) name in
  if decide (iter = Std.size ns) then
    throw (invalid_argument (name +:+ " is not found in the MyVector"))
  else
    detach this ;;
    pv <- get_values this ;;
    value_ref pv iter.

(* reserve as the specification words it, for comparison with [reserve]:
   the handle first makes sure it owns its block alone, and then reserves
   in both vectors. *)
Definition reserve_as_specified {T} (lim : Std.limits) (this : loc) (n : nat)
    : M T unit :=
  detach this ;;
  pv <- get_values this ;;
  reserve_values lim pv n ;;
  pn <- get_names this ;;
  reserve_names lim pn n.

(* The block a detaching handle ends up with, and the store after it:
   the old counter is decremented, three fresh objects are allocated, and
   the handle at [this] points to them. *)
Definition detached {T} (s : state T) (this : loc) (o : MyVector) (c : Z)
    (vs : Std.vector T) (ns : Std.vector string) : state T :=
  State
    (<[this := Obj (fresh (dom (value_vectors s))) (fresh (dom (name_vectors s)))
                   (fresh (dom (counters s)))]> (objects s))
    (<[fresh (dom (value_vectors s)) := Std.copy vs]> (value_vectors s))
    (<[fresh (dom (name_vectors s)) := Std.copy ns]> (name_vectors s))
    (<[fresh (dom (counters s)) := 1]>
       (<[m_ref_count o := wrap (c - 1)]> (counters s))).

(* A store is consistent when every live handle points to three allocated
   objects, two handles share a vector exactly when they share the
   counter, every counter holds the number of live handles pointing to it,
   and nothing is allocated that no handle points to. *)
Record consistent {T} (s : state T) : Prop := Consistent {
  handle_counter : ∀ x o, objects s !! x = Some o →
    is_Some (counters s !! m_ref_count o);
  handle_values : ∀ x o, objects s !! x = Some o →
    is_Some (value_vectors s !! m_values o);
  handle_names : ∀ x o, objects s !! x = Some o →
    is_Some (name_vectors s !! m_names o);
  same_values : ∀ x y ox oy,
    objects s !! x = Some ox → objects s !! y = Some oy →
    (m_values ox = m_values oy ↔ m_ref_count ox = m_ref_count oy);
  same_names : ∀ x y ox oy,
    objects s !! x = Some ox → objects s !! y = Some oy →
    (m_names ox = m_names oy ↔ m_ref_count ox = m_ref_count oy);
  counted : ∀ pc c, counters s !! pc = Some c →
    c = Z.of_nat (handles_on s pc);
  counter_used : ∀ pc c, counters s !! pc = Some c → 0 < c;
  values_used : ∀ p, is_Some (value_vectors s !! p) →
    ∃ x o, objects s !! x = Some o ∧ m_values o = p;
  names_used : ∀ p, is_Some (name_vectors s !! p) →
    ∃ x o, objects s !! x = Some o ∧ m_names o = p
}.

(* Fewer live handles than a size_t can count. *)
Definition bounded {T} (s : state T) : Prop :=
  Z.of_nat (base.size (objects s)) + 1 < size_t_modulus.

(* The four ways the member functions change which handle points where:
   a new handle on a newly allocated block, a new handle on an existing
   block, a handle leaving a block that others still use, and the last
   handle leaving a block. *)
Definition add_block {T} (s : state T) (x : loc) (vs : Std.vector T)
    (ns : Std.vector string) : state T :=
  State
    (<[x := Obj (fresh (dom (value_vectors s))) (fresh (dom (name_vectors s)))
                (fresh (dom (counters s)))]> (objects s))
    (<[fresh (dom (value_vectors s)) := vs]> (value_vectors s))
    (<[fresh (dom (name_vectors s)) := ns]> (name_vectors s))
    (<[fresh (dom (counters s)) := 1]> (counters s)).

Definition share_block {T} (s : state T) (x : loc) (o : MyVector) (c : Z)
    : state T :=
  State (<[x := o]> (objects s)) (value_vectors s) (name_vectors s)
        (<[m_ref_count o := c + 1]> (counters s)).

Definition leave_block {T} (s : state T) (x : loc) (o : MyVector) (c : Z)
    : state T :=
  State (delete x (objects s)) (value_vectors s) (name_vectors s)
        (<[m_ref_count o := c - 1]> (counters s)).

Definition free_block {T} (s : state T) (x : loc) (o : MyVector) : state T :=
  State (delete x (objects s)) (delete (m_values o) (value_vectors s))
        (delete (m_names o) (name_vectors s))
        (delete (m_ref_count o) (counters s)).

(* A computation that leaves every store as it found it. *)
Definition read_only {T A} (m : M T A) : Prop :=
  ∀ s, match m s with
       | Returns _ s' => s' = s
       | Throws _ s' => s' = s
       | Undefined => True
       end.

(* The calls that may write to a block, the calls that begin or end the
   lifetime of a handle, and the calls that only read. *)
Inductive mutation (T : Type) : Type :=
| MPushBack (value : T) (name : string)
| MClear
| MReserve (n : nat)
| MIndex (index : nat)
| MBegin
| MEnd.
Arguments MPushBack {T} _ _.
Arguments MClear {T}.
Arguments MReserve {T} _.
Arguments MIndex {T} _.
Arguments MBegin {T}.
Arguments MEnd {T}.

Inductive access : Type :=
| AIndex (index : nat)
| AName (name : string)
| ANameMut (name : string)
| ACBegin
| ACEnd
| AEmpty
| ASize.

Inductive call (T : Type) : Type :=
| Construct (x : loc)
| CopyConstruct (x other : loc)
| Destroy (x : loc)
| Mutate (x : loc) (m : mutation T)
| Access (x : loc) (a : access).
Arguments Construct {T} _.
Arguments CopyConstruct {T} _ _.
Arguments Destroy {T} _.
Arguments Mutate {T} _ _.
Arguments Access {T} _ _.

Definition mutate {T} (grow : nat → nat) (lim : Std.limits) (this : loc)
    (m : mutation T) : M T unit :=
  match m with
  | MPushBack value name => push_back grow this value name
  | MClear => clear this
  | MReserve n => reserve lim this n
  | MIndex index => (_ <- index_mut this index ;; ret tt)
  | MBegin => (_ <- begin this ;; ret tt)
  | MEnd => (_ <- end_ this ;; ret tt)
  end.

Definition perform {T} (this : loc) (a : access) : M T unit :=
  match a with
  | AIndex index => (_ <- index_const this index ;; ret tt)
  | AName name => (_ <- name_const this name ;; ret tt)
  | ANameMut name => (_ <- name_mut this name ;; ret tt)
  | ACBegin => (_ <- cbegin this ;; ret tt)
  | ACEnd => (_ <- cend this ;; ret tt)
  | AEmpty => (_ <- empty this ;; ret tt)
  | ASize => (_ <- size this ;; ret tt)
  end.

Definition run_call {T} (grow : nat → nat) (lim : Std.limits) (c : call T)
    : M T unit :=
  match c with
  | Construct x => ctor x
  | CopyConstruct x other => copy_ctor x other
  | Destroy x => dtor x
  | Mutate x m => mutate grow lim x m
  | Access x a => perform x a
  end.

(* What a mutating call on the handle at [this] leaves behind: a
   consistent store with the same handles, in which every other handle
   reads what it read before and this handle reads what the call made. *)
Definition mutate_post {T} (s : state T) (this : loc) (m : mutation T)
    (s' : state T) : Prop :=
  consistent s' ∧
  base.size (objects s') = base.size (objects s) ∧
  (∀ x, x ≠ this → contents s' x = contents s x) ∧
  match m with
  | MPushBack value name =>
      ∃ values names,
        contents s this = Some (values, names) ∧
        contents s' this = Some (values ++ [value], names ++ [name])
  | MClear => contents s' this = Some ([], [])
  | _ => contents s' this = contents s this
  end.

(* The two vectors every handle reads have the same length. *)
Definition paired {T} (s : state T) : Prop :=
  ∀ x values names,
    contents s x = Some (values, names) → length values = length names.

(* The stores a program reaches from the empty one by calls of the
   class, none of them the implicit operator=, with fewer live handles
   than a size_t can count. *)
Inductive reachable {T} (grow : nat → nat) (lim : Std.limits)
    : state T → Prop :=
| reach_initial : reachable grow lim initial_state
| reach_return s c s' :
    reachable grow lim s → bounded s →
    run_call grow lim c s = Returns tt s' → reachable grow lim s'
| reach_throw s c e s' :
    reachable grow lim s → bounded s →
    run_call grow lim c s = Throws e s' → reachable grow lim s'.

(* A sequence of calls run from a store, each started with fewer live
   handles than a size_t can count; [None] when a call has no defined
   behaviour. *)
Fixpoint run_calls {T} (grow : nat → nat) (lim : Std.limits)
    (cs : list (call T)) (s : state T) : option (state T) :=
  match cs with
  | [] => Some s
  | c :: cs' =>
      if (Z.of_nat (base.size (objects s)) + 1 <? size_t_modulus)%Z then
        match run_call grow lim c s with
        | Returns _ s' | Throws _ s' => run_calls grow lim cs' s'
        | Undefined => None
        end
      else None
  end.

(* A computation that throws on no store. *)
Definition never_throws {T A} (m : M T A) : Prop :=
  ∀ s e s', m s ≠ Throws e s'.

(* --------------------------------------------------------------------- *)
(* Small programs and the stores they reach                              *)
(* --------------------------------------------------------------------- *)

Module Examples.

(* A growth policy: a full vector doubles (capacity 0 becomes 1). *)
Definition doubling (c : nat) : nat := Nat.max 1 (2 * c).

(* A library whose vectors hold at most a thousand elements. *)
Definition small : Std.limits := Std.Limits 1000 1000 "vector::reserve".

(* Addresses of two MyVector<T> variables. *)
Definition a : loc := 1%positive.
Definition b : loc := 2%positive.

(* The first and second address each of the three heaps hands out. *)
Definition p1 : loc := 1%positive.
Definition p2 : loc := 2%positive.

(* MyVector<T> a; a.push_back(x, "a"); MyVector<T> b(a); *)
Definition copy_program {T} (x : T) : M T unit :=
  ctor a ;; push_back doubling a x "a" ;; copy_ctor b a.

Definition shared_pair {T} (x : T) : state T :=
  State {[ a := Obj p1 p1 p1; b := Obj p1 p1 p1 ]}
        {[ p1 := Std.Vec [x] 1 ]}
        {[ p1 := Std.Vec ["a"] 1 ]}
        {[ p1 := 2 ]}.

(* MyVector<T> a; a.push_back(x, "a"); a.push_back(y, "b");
   a.push_back(z, "a"); *)
Definition abc_program {T} (x y z : T) : M T unit :=
  ctor a ;; push_back doubling a x "a" ;; push_back doubling a y "b" ;;
  push_back doubling a z "a".

Definition abc {T} (x y z : T) : state T :=
  State {[ a := Obj p1 p1 p1 ]}
        {[ p1 := Std.Vec [x; y; z] 4 ]}
        {[ p1 := Std.Vec ["a"; "b"; "a"] 4 ]}
        {[ p1 := 1 ]}.

(* MyVector<T> a; MyVector<T> b; b = a; *)
Definition assign_program {T} : M T unit :=
  ctor a ;; ctor b ;; copy_assign b a.

Definition assigned_pair {T} : state T :=
  State {[ a := Obj p1 p1 p1; b := Obj p1 p1 p1 ]}
        {[ p1 := Std.empty_vector; p2 := Std.empty_vector ]}
        {[ p1 := Std.empty_vector; p2 := Std.empty_vector ]}
        {[ p1 := 1; p2 := 1 ]}.

End Examples.

Import Examples.

(* ===================================================================== *)
(* Properties                                                            *)
(* ===================================================================== *)

Lemma wrap_small z : 0 ≤ z < size_t_modulus → wrap z = z.
Proof. intros H. unfold wrap. apply Z.mod_small. exact H. Qed.

Lemma dom_insert_present `{Countable K} {A} (m : gmap K A) (k : K) (x y : A) :
  m !! k = Some x → dom (<[k := y]> m) = dom m.
Proof.
  intros Hk. rewrite dom_insert_L.
  apply subseteq_union_1_L, singleton_subseteq_l, elem_of_dom. eauto.
Qed.

Lemma fresh_lookup_None {A} (m : gmap loc A) : m !! fresh (dom m) = None.
Proof. apply not_elem_of_dom, is_fresh. Qed.

Lemma fresh_ne_present {A} (m : gmap loc A) (k : loc) (x : A) :
  m !! k = Some x → fresh (dom m) ≠ k.
Proof. intros Hk Heq. rewrite <- Heq, fresh_lookup_None in Hk. discriminate. Qed.

(* Symbolic execution of a computation whose lookups are known. *)
Ltac unfold_prims :=
  unfold get_ref_count, get_values, get_names, set_ref_count, set_values,
    set_names, value_ref, name_ref, load_counter, store_counter, new_counter,
    delete_counter, load_values, store_values, new_values, delete_values,
    load_names, store_names, new_names, delete_names, read_object,
    write_object, begin_lifetime, end_lifetime, bind, ret, throw, undefined.

Ltac mstep :=
  first
    [ progress cbn [objects value_vectors name_vectors counters
                    m_values m_names m_ref_count]
    | rewrite lookup_insert_eq
    | match goal with
      | H : ?m !! ?k = _ |- context [?m !! ?k] => rewrite H
      end ].

Ltac mrun := unfold_prims; repeat mstep.

(* --------------------------------------------------------------------- *)
(* Computations that never throw                                         *)
(* --------------------------------------------------------------------- *)

Section NeverThrows.

Context {T : Type}.

Lemma bind_never_throws {A B} (m : M T A) (k : A → M T B) :
  never_throws m → (∀ a, never_throws (k a)) → never_throws (bind m k).
Proof.
  intros Hm Hk s e s'. unfold bind.
  destruct (m s) as [a s1| e1 s1 |] eqn:E; [apply Hk | | done].
  by apply Hm in E.
Qed.

Lemma ret_never_throws {A} (a : A) : never_throws (T:=T) (ret a).
Proof. done. Qed.

Lemma undefined_never_throws {A} : never_throws (T:=T) (A:=A) undefined.
Proof. done. Qed.

Lemma read_object_never_throws this : never_throws (T:=T) (read_object this).
Proof. intros s e s'. unfold read_object. by destruct (_ !! _). Qed.

Lemma write_object_never_throws this o :
  never_throws (T:=T) (write_object this o).
Proof. intros s e s'. unfold write_object. by destruct (_ !! _). Qed.

Lemma load_counter_never_throws p : never_throws (T:=T) (load_counter p).
Proof. intros s e s'. unfold load_counter. by destruct (_ !! _). Qed.

Lemma store_counter_never_throws p c :
  never_throws (T:=T) (store_counter p c).
Proof. intros s e s'. unfold store_counter. by destruct (_ !! _). Qed.

Lemma load_values_never_throws p : never_throws (T:=T) (load_values p).
Proof. intros s e s'. unfold load_values. by destruct (_ !! _). Qed.

Lemma load_names_never_throws p : never_throws (T:=T) (load_names p).
Proof. intros s e s'. unfold load_names. by destruct (_ !! _). Qed.

Lemma new_counter_never_throws c : never_throws (T:=T) (new_counter c).
Proof. done. Qed.

Lemma new_values_never_throws v : never_throws (T:=T) (new_values v).
Proof. done. Qed.

Lemma new_names_never_throws v : never_throws (T:=T) (new_names v).
Proof. done. Qed.

End NeverThrows.

Create HintDb nothrow.
#[export] Hint Resolve ret_never_throws undefined_never_throws
  read_object_never_throws write_object_never_throws
  load_counter_never_throws store_counter_never_throws
  load_values_never_throws load_names_never_throws
  new_counter_never_throws new_values_never_throws
  new_names_never_throws : nothrow.

Ltac nothrow :=
  repeat first
    [ apply bind_never_throws; [| intros ? ]
    | match goal with
      | |- never_throws (if ?b then _ else _) => destruct b
      end
    | solve [ auto with nothrow ] ].

Lemma detach_never_throws {T} this : never_throws (T:=T) (detach this).
Proof.
  unfold detach, get_ref_count, get_values, get_names, set_ref_count,
    set_values, set_names.
  nothrow.
Qed.

Lemma value_ref_nothrow {T} p i : never_throws (T:=T) (value_ref p i).
Proof. unfold value_ref. nothrow. Qed.

Lemma name_ref_nothrow {T} p i : never_throws (T:=T) (name_ref p i).
Proof. unfold name_ref. nothrow. Qed.

(* --------------------------------------------------------------------- *)
(* Computations that do not change the store                             *)
(* --------------------------------------------------------------------- *)

Section ReadOnly.

Context {T : Type}.

Lemma bind_read_only {A B} (m : M T A) (k : A → M T B) :
  read_only m → (∀ a, read_only (k a)) → read_only (bind m k).
Proof.
  intros Hm Hk s. unfold bind. specialize (Hm s).
  destruct (m s) as [a s1| e s1 |]; [| done | done].
  subst s1. apply Hk.
Qed.

Lemma ret_read_only {A} (a : A) : read_only (T:=T) (ret a).
Proof. by intros s. Qed.

Lemma throw_read_only {A} e : read_only (T:=T) (A:=A) (throw e).
Proof. by intros s. Qed.

Lemma undefined_read_only {A} : read_only (T:=T) (A:=A) undefined.
Proof. by intros s. Qed.

Lemma read_object_read_only this : read_only (T:=T) (read_object this).
Proof. intros s. unfold read_object. by destruct (_ !! _). Qed.

Lemma load_counter_read_only p : read_only (T:=T) (load_counter p).
Proof. intros s. unfold load_counter. by destruct (_ !! _). Qed.

Lemma load_values_read_only p : read_only (T:=T) (load_values p).
Proof. intros s. unfold load_values. by destruct (_ !! _). Qed.

Lemma load_names_read_only p : read_only (T:=T) (load_names p).
Proof. intros s. unfold load_names. by destruct (_ !! _). Qed.

End ReadOnly.

Create HintDb readonly.
#[export] Hint Resolve ret_read_only throw_read_only undefined_read_only
  read_object_read_only load_counter_read_only load_values_read_only
  load_names_read_only : readonly.

Ltac readonly :=
  repeat first
    [ apply bind_read_only; [| intros ? ]
    | match goal with
      | |- read_only (if ?b then _ else _) => destruct b
      end
    | solve [ auto with readonly ] ].

Section ConstAccess.

Context {T : Type}.

Lemma value_ref_read_only p i : read_only (T:=T) (value_ref p i).
Proof. unfold value_ref. readonly. Qed.

Lemma name_ref_read_only p i : read_only (T:=T) (name_ref p i).
Proof. unfold name_ref. readonly. Qed.

Lemma index_const_read_only this i : read_only (T:=T) (index_const this i).
Proof.
  pose proof (@value_ref_read_only). pose proof (@name_ref_read_only).
  unfold index_const, get_values, get_names. readonly.
Qed.

Lemma name_const_read_only this name : read_only (T:=T) (name_const this name).
Proof.
  pose proof (@value_ref_read_only).
  unfold name_const, get_values, get_names. readonly.
Qed.

Lemma name_mut_read_only this name : read_only (T:=T) (name_mut this name).
Proof.
  unfold name_mut. apply bind_read_only.
  - apply name_const_read_only.
  - intros r. apply ret_read_only.
Qed.

Lemma cbegin_read_only this : read_only (T:=T) (cbegin this).
Proof. unfold cbegin, get_values. readonly. Qed.

Lemma cend_read_only this : read_only (T:=T) (cend this).
Proof. unfold cend, get_values. readonly. Qed.

Lemma empty_read_only this : read_only (T:=T) (empty this).
Proof. unfold empty, get_values. readonly. Qed.

Lemma size_read_only this : read_only (T:=T) (size this).
Proof. unfold size, get_values. readonly. Qed.

(* No reading call changes the store: nothing is detached, no counter
   moves.  The non-const lookup by name is among them. *)
Lemma perform_read_only this a : read_only (T:=T) (perform this a).
Proof.
  pose proof (@index_const_read_only). pose proof (@name_const_read_only).
  pose proof (@name_mut_read_only). pose proof (@cbegin_read_only).
  pose proof (@cend_read_only). pose proof (@empty_read_only).
  pose proof (@size_read_only).
  destruct a; unfold perform;
    (apply bind_read_only; [auto | intros; apply ret_read_only]).
Qed.

End ConstAccess.

Section Detach.

Context {T : Type}.
Implicit Types (s : state T) (this : loc) (o : MyVector).

Lemma detach_exclusive s this o c :
  objects s !! this = Some o →
  counters s !! m_ref_count o = Some c →
  c ≤ 1 →
  detach this s = Returns tt s.
Proof.
  intros Ho Hc Hle.
  unfold detach. mrun.
  destruct (1 <? c) eqn:E; [apply Z.ltb_lt in E; lia | reflexivity].
Qed.

Lemma detach_shared s this o c vs ns :
  objects s !! this = Some o →
  counters s !! m_ref_count o = Some c →
  value_vectors s !! m_values o = Some vs →
  name_vectors s !! m_names o = Some ns →
  1 < c →
  detach this s = Returns tt (detached s this o c vs ns).
Proof.
  intros Ho Hc Hv Hn Hlt.
  unfold detach. mrun.
  destruct (1 <? c) eqn:E; [| apply Z.ltb_ge in E; lia].
  repeat mstep.
  unfold detached. rewrite !insert_insert_eq.
  rewrite (dom_insert_present _ _ c) by exact Hc.
  reflexivity.
Qed.

End Detach.

(* --------------------------------------------------------------------- *)
(* std::find on the sequence of names                                    *)
(* --------------------------------------------------------------------- *)

Lemma find_le l x : (Std.find l x ≤ length l)%nat.
Proof.
  induction l as [|y l IH]; simpl; [lia |].
  destruct (decide (y = x)); lia.
Qed.

Lemma find_end l x : Std.find l x = length l ↔ x ∉ l.
Proof.
  induction l as [|y l IH]; simpl.
  - split; [intros _; apply not_elem_of_nil | reflexivity].
  - destruct (decide (y = x)) as [->|Hne].
    + split; [discriminate | intros H; exfalso; apply H; left].
    + rewrite not_elem_of_cons. split.
      * intros H. split; [congruence | apply IH; lia].
      * intros [_ H]. f_equal. by apply IH.
Qed.

Lemma find_first l x i :
  l !! i = Some x →
  (∀ j, (j < i)%nat → l !! j ≠ Some x) →
  Std.find l x = i.
Proof.
  revert i. induction l as [|y l IH]; intros i Hi Hbefore; [done |].
  simpl. destruct (decide (y = x)) as [->|Hne].
  - destruct i as [|i]; [done |].
    exfalso. apply (Hbefore 0%nat); [lia | done].
  - destruct i as [|i]; [simpl in Hi; congruence |].
    f_equal. apply IH; [exact Hi |].
    intros j Hj. apply (Hbefore (S j)). lia.
Qed.

Lemma find_found l x :
  (Std.find l x < length l)%nat →
  l !! Std.find l x = Some x ∧
  ∀ j, (j < Std.find l x)%nat → l !! j ≠ Some x.
Proof.
  induction l as [|y l IH]; simpl; [lia |].
  destruct (decide (y = x)) as [->|Hne]; intros Hlt.
  - split; [done | intros j Hj; lia].
  - destruct IH as [IH1 IH2]; [lia |]. split; [exact IH1 |].
    intros [|j] Hj; simpl; [congruence | apply IH2; lia].
Qed.

(* --------------------------------------------------------------------- *)
(* The what() string of the name lookup determines the queried name      *)
(* --------------------------------------------------------------------- *)

Lemma to_list_append (a b : string) :
  String.list_ascii_of_string (a +:+ b) =
  String.list_ascii_of_string a ++ String.list_ascii_of_string b.
Proof.
  induction a as [|ch a IH]; [reflexivity |].
  change (String ch a +:+ b) with (String ch (a +:+ b)).
  simpl. by rewrite IH.
Qed.

Lemma append_inv_tail (a b c : string) : a +:+ c = b +:+ c → a = b.
Proof.
  intros H.
  apply (f_equal String.list_ascii_of_string) in H.
  rewrite !to_list_append in H. apply app_inv_tail in H.
  rewrite <- (String.string_of_list_ascii_of_string a),
          <- (String.string_of_list_ascii_of_string b).
  by rewrite H.
Qed.

(* --------------------------------------------------------------------- *)
(* Lookup by name                                                        *)
(* --------------------------------------------------------------------- *)

Section NameLookup.

Context {T : Type}.
Implicit Types (s : state T) (this : loc) (o : MyVector) (name : string).

Lemma name_mut_const s this name :
  name_mut this name s = name_const (T:=T) this name s.
Proof.
  unfold name_mut, const_cast, bind, ret.
  by destruct (name_const this name s).
Qed.

Lemma name_const_absent s this o ns name :
  objects s !! this = Some o →
  name_vectors s !! m_names o = Some ns →
  name ∉ Std.elems ns →
  name_const this name s =
    Throws (invalid_argument (name +:+ " is not found in the MyVector")) s.
Proof.
  intros Ho Hn Habs. unfold name_const. mrun.
  destruct (decide _) as [_|Hne]; [reflexivity |].
  exfalso. apply Hne. by apply find_end.
Qed.

Lemma name_const_present s this o ns name :
  objects s !! this = Some o →
  name_vectors s !! m_names o = Some ns →
  name ∈ Std.elems ns →
  name_const this name s =
    value_ref (m_values o) (Std.find (Std.elems ns) name) s.
Proof.
  intros Ho Hn Hin. unfold name_const. mrun.
  destruct (decide _) as [Heq|_]; [| by repeat mstep].
  exfalso. by apply find_end in Heq.
Qed.

Lemma value_ref_in_range s p vs i :
  value_vectors s !! p = Some vs →
  (i < length (Std.elems vs))%nat →
  value_ref p i s = Returns (ElemOf p i) s.
Proof.
  intros Hv Hi. unfold value_ref. mrun. unfold Std.size.
  by destruct (Nat.ltb_spec i (length (Std.elems vs))); [| lia].
Qed.

End NameLookup.

Lemma lookup_insert_elems {A} (m : gmap loc (Std.vector A)) p v v' q :
  m !! p = Some v → Std.elems v' = Std.elems v →
  Std.elems <$> (<[p := v']> m) !! q = Std.elems <$> m !! q.
Proof.
  intros Hp He. destruct (decide (p = q)) as [<-|Hne].
  - rewrite lookup_insert_eq, Hp. simpl. by rewrite He.
  - by rewrite lookup_insert_ne.
Qed.

Lemma contents_elems {T} (s s' : state T) x :
  objects s' = objects s →
  (∀ q, Std.elems <$> value_vectors s' !! q = Std.elems <$> value_vectors s !! q) →
  (∀ q, Std.elems <$> name_vectors s' !! q = Std.elems <$> name_vectors s !! q) →
  contents s' x = contents s x.
Proof.
  intros Ho Hv Hn. unfold contents. rewrite Ho.
  destruct (objects s !! x) as [o|]; [| done]. simpl.
  specialize (Hv (m_values o)). specialize (Hn (m_names o)).
  destruct (value_vectors s' !! m_values o), (value_vectors s !! m_values o);
    simplify_eq/=; [| done].
  destruct (name_vectors s' !! m_names o), (name_vectors s !! m_names o);
    simplify_eq/=; [| done].
  congruence.
Qed.

(* The store reserve(n) produces when n is within max_size() of both
   vectors: the two vectors of the handle's block with their capacity
   raised, everything else as it was. *)
Lemma reserve_runs {T} (lim : Std.limits) (s : state T) (this : loc)
    (o : MyVector) (vs : Std.vector T) (ns : Std.vector string) (n : nat) :
  objects s !! this = Some o →
  value_vectors s !! m_values o = Some vs →
  name_vectors s !! m_names o = Some ns →
  (n ≤ Std.max_size_values lim)%nat →
  (n ≤ Std.max_size_names lim)%nat →
  reserve lim this n s
  = Returns tt
      (State (objects s)
             (<[m_values o := Std.with_capacity vs n]> (value_vectors s))
             (<[m_names o := Std.with_capacity ns n]> (name_vectors s))
             (counters s)).
Proof.
  intros Ho Hv Hn Hmv Hmn.
  unfold reserve, reserve_values, reserve_names, Std.reserve. mrun.
  destruct (Nat.ltb_spec (Std.max_size_values lim) n); [lia |].
  repeat mstep.
  destruct (Nat.ltb_spec (Std.max_size_names lim) n); [lia |].
  by repeat mstep.
Qed.

(* Beyond max_size() of the vector of values the first reserve throws and
   the store is as it was. *)
Lemma reserve_throws_at_values {T} (lim : Std.limits) (s : state T)
    (this : loc) (o : MyVector) (vs : Std.vector T) (n : nat) :
  objects s !! this = Some o →
  value_vectors s !! m_values o = Some vs →
  (Std.max_size_values lim < n)%nat →
  reserve lim this n s = Throws (length_error (Std.reserve_what lim)) s.
Proof.
  intros Ho Hv Hmv.
  unfold reserve, reserve_values, Std.reserve. mrun.
  by destruct (Nat.ltb_spec (Std.max_size_values lim) n); [| lia].
Qed.

(* Within max_size() of the vector of values and beyond that of the vector
   of names, the second reserve throws after the first has taken effect. *)
Lemma reserve_throws_at_names {T} (lim : Std.limits) (s : state T)
    (this : loc) (o : MyVector) (vs : Std.vector T) (ns : Std.vector string)
    (n : nat) :
  objects s !! this = Some o →
  value_vectors s !! m_values o = Some vs →
  name_vectors s !! m_names o = Some ns →
  (n ≤ Std.max_size_values lim)%nat →
  (Std.max_size_names lim < n)%nat →
  reserve lim this n s
  = Throws (length_error (Std.reserve_what lim))
      (State (objects s)
             (<[m_values o := Std.with_capacity vs n]> (value_vectors s))
             (name_vectors s) (counters s)).
Proof.
  intros Ho Hv Hn Hmv Hmn.
  unfold reserve, reserve_values, reserve_names, Std.reserve. mrun.
  destruct (Nat.ltb_spec (Std.max_size_values lim) n); [lia |].
  repeat mstep.
  by destruct (Nat.ltb_spec (Std.max_size_names lim) n); [| lia].
Qed.

(* However reserve ends, every handle keeps its pointers and every counter
   its value: no call of detach is part of it. *)
Lemma reserve_keeps_handles {T} (lim : Std.limits) (s : state T)
    (this : loc) (n : nat) :
  match reserve lim this n s with
  | Returns _ s' | Throws _ s' =>
      objects s' = objects s ∧ counters s' = counters s
  | Undefined => True
  end.
Proof.
  unfold reserve, reserve_values, reserve_names. unfold_prims.
  destruct (objects s !! this) as [o|] eqn:Ho; [| done].
  destruct (value_vectors s !! m_values o) as [vs|] eqn:Hv; [| done].
  destruct (Std.reserve (Std.max_size_values lim) vs n) as [vs'|]; [| done].
  rewrite Hv. repeat mstep.
  destruct (name_vectors s !! m_names o) as [ns|] eqn:Hn; [| done].
  destruct (Std.reserve (Std.max_size_names lim) ns n) as [ns'|]; [| done].
  by repeat mstep.
Qed.

Lemma reserve_contents {T} (s : state T) (o : MyVector)
    (vs : Std.vector T) (ns : Std.vector string) (n : nat) (x : loc) :
  value_vectors s !! m_values o = Some vs →
  name_vectors s !! m_names o = Some ns →
  contents
    (State (objects s)
           (<[m_values o := Std.with_capacity vs n]> (value_vectors s))
           (<[m_names o := Std.with_capacity ns n]> (name_vectors s))
           (counters s)) x
  = contents s x.
Proof.
  intros Hv Hn. apply contents_elems; [done | |];
    intros q; cbn [value_vectors name_vectors].
  - by apply (lookup_insert_elems _ _ vs).
  - by apply (lookup_insert_elems _ _ ns).
Qed.

Lemma reserve_values_contents {T} (s : state T) (o : MyVector)
    (vs : Std.vector T) (n : nat) (x : loc) :
  value_vectors s !! m_values o = Some vs →
  contents
    (State (objects s)
           (<[m_values o := Std.with_capacity vs n]> (value_vectors s))
           (name_vectors s) (counters s)) x
  = contents s x.
Proof.
  intros Hv. apply contents_elems; [done | | done].
  intros q; cbn [value_vectors]. by apply (lookup_insert_elems _ _ vs).
Qed.

Lemma copy_program_runs {T} (x : T) :
  copy_program x initial_state = Returns tt (shared_pair x).
Proof. vm_compute. reflexivity. Qed.

Lemma abc_program_runs {T} (x y z : T) :
  abc_program x y z initial_state = Returns tt (abc x y z).
Proof. vm_compute. reflexivity. Qed.

Lemma assign_program_runs {T} :
  assign_program (T:=T) initial_state = Returns tt assigned_pair.
Proof. vm_compute. reflexivity. Qed.

(* --------------------------------------------------------------------- *)
(* Counting the handles on a counter                                     *)
(* --------------------------------------------------------------------- *)

Section CountHandles.

Implicit Types (objs : gmap loc MyVector) (o : MyVector) (x pc : loc).

Lemma count_handles_empty pc : count_handles ∅ pc = 0%nat.
Proof. unfold count_handles. by rewrite map_filter_empty, map_size_empty. Qed.

Lemma count_handles_insert_new objs x o pc :
  objs !! x = None →
  count_handles (<[x := o]> objs) pc
  = (count_handles objs pc + hits o pc)%nat.
Proof.
  intros Hx. unfold count_handles, hits. rewrite map_filter_insert. simpl.
  destruct (decide (m_ref_count o = pc)) as [Heq|Hne].
  - rewrite map_size_insert_None; [lia |].
    apply map_lookup_filter_None. by left.
  - rewrite delete_id by done. lia.
Qed.

Lemma count_handles_delete objs x o pc :
  objs !! x = Some o →
  count_handles objs pc
  = (count_handles (delete x objs) pc + hits o pc)%nat.
Proof.
  intros Hx.
  rewrite <- (insert_id objs x o Hx) at 1.
  rewrite <- insert_delete_eq.
  apply count_handles_insert_new, lookup_delete_eq.
Qed.

Lemma count_handles_insert objs x o o' pc :
  objs !! x = Some o →
  (count_handles (<[x := o']> objs) pc + hits o pc
   = count_handles objs pc + hits o' pc)%nat.
Proof.
  intros Hx.
  rewrite (count_handles_delete objs x o pc Hx).
  rewrite <- (insert_delete_eq objs).
  rewrite count_handles_insert_new by apply lookup_delete_eq. lia.
Qed.

Lemma count_handles_le objs pc :
  (count_handles objs pc ≤ base.size objs)%nat.
Proof. apply map_size_filter. Qed.

Lemma count_handles_pos objs x o :
  objs !! x = Some o → (1 ≤ count_handles objs (m_ref_count o))%nat.
Proof.
  intros Hx. rewrite (count_handles_delete objs x o _ Hx).
  unfold hits. rewrite decide_True by done. lia.
Qed.

Lemma count_handles_zero objs pc x o :
  count_handles objs pc = 0%nat → objs !! x = Some o → m_ref_count o ≠ pc.
Proof.
  intros Hz Hx <-. pose proof (count_handles_pos objs x o Hx). lia.
Qed.

Lemma count_handles_some objs pc :
  (0 < count_handles objs pc)%nat →
  ∃ x o, objs !! x = Some o ∧ m_ref_count o = pc.
Proof.
  unfold count_handles. intros Hpos.
  assert (Hne : base.size (filter (λ kv : loc * MyVector,
                                     m_ref_count kv.2 = pc) objs) ≠ 0%nat)
    by lia.
  apply map_size_ne_0_lookup_1 in Hne as [x [o Hx]].
  apply map_lookup_filter_Some in Hx as [Hx Hpc]. by exists x, o.
Qed.

(* A counter with exactly one handle on it: that handle is the only one. *)
Lemma count_handles_one objs x o y oy :
  count_handles objs (m_ref_count o) = 1%nat →
  objs !! x = Some o → objs !! y = Some oy → y ≠ x →
  m_ref_count oy ≠ m_ref_count o.
Proof.
  intros H1 Hx Hy Hne.
  rewrite (count_handles_delete objs x o _ Hx) in H1.
  unfold hits in H1. rewrite decide_True in H1 by done.
  apply (count_handles_zero (delete x objs) _ y); [lia |].
  by rewrite lookup_delete_ne.
Qed.

End CountHandles.

(* --------------------------------------------------------------------- *)
(* The reference-count invariant                                         *)
(* --------------------------------------------------------------------- *)

Section Invariant.

Context {T : Type}.
Implicit Types (s : state T) (this x : loc) (o : MyVector).

Lemma consistent_initial : consistent (initial_state (T:=T)).
Proof.
  split; simpl; try (intros; simplify_map_eq; fail).
  - intros p [v H]. by rewrite lookup_empty in H.
  - intros p [v H]. by rewrite lookup_empty in H.
Qed.

(* No live handle points to an address that is not allocated. *)
Lemma unallocated_counter_unused s pc :
  consistent s → counters s !! pc = None → handles_on s pc = 0%nat.
Proof.
  intros Hs Hpc. unfold handles_on.
  destruct (count_handles (objects s) pc) as [|n] eqn:E; [done |].
  destruct (count_handles_some (objects s) pc) as (x & o & Hx & <-); [lia |].
  apply (handle_counter s Hs) in Hx as [c Hc]. congruence.
Qed.

Lemma add_block_consistent s this vs ns :
  consistent s → objects s !! this = None →
  consistent (add_block s this vs ns).
Proof.
  intros Hs Hthis. unfold add_block.
  set (pv := fresh (dom (value_vectors s))).
  set (pn := fresh (dom (name_vectors s))).
  set (pc := fresh (dom (counters s))).
  assert (Hpv : value_vectors s !! pv = None) by apply fresh_lookup_None.
  assert (Hpn : name_vectors s !! pn = None) by apply fresh_lookup_None.
  assert (Hpc : counters s !! pc = None) by apply fresh_lookup_None.
  split; cbn [objects value_vectors name_vectors counters].
  - intros x o. rewrite lookup_insert_Some. intros [[<- <-]|[Hne Hx]].
    + simpl. rewrite lookup_insert_eq. eauto.
    + apply lookup_insert_is_Some. right. split.
      * intros ->. apply (handle_counter s Hs) in Hx as [? ?]. congruence.
      * by apply (handle_counter s Hs) in Hx.
  - intros x o. rewrite lookup_insert_Some. intros [[<- <-]|[Hne Hx]].
    + simpl. rewrite lookup_insert_eq. eauto.
    + apply lookup_insert_is_Some. right. split.
      * intros ->. apply (handle_values s Hs) in Hx as [? ?]. congruence.
      * by apply (handle_values s Hs) in Hx.
  - intros x o. rewrite lookup_insert_Some. intros [[<- <-]|[Hne Hx]].
    + simpl. rewrite lookup_insert_eq. eauto.
    + apply lookup_insert_is_Some. right. split.
      * intros ->. apply (handle_names s Hs) in Hx as [? ?]. congruence.
      * by apply (handle_names s Hs) in Hx.
  - intros x y ox oy. rewrite !lookup_insert_Some.
    intros [[<- <-]|[Hx1 Hx]] [[<- <-]|[Hy1 Hy]]; simpl; try done.
    + apply (handle_values s Hs) in Hy as Hv. apply (handle_counter s Hs) in Hy as Hc.
      destruct Hv as [? Hv], Hc as [? Hc]. split; intros E; congruence.
    + apply (handle_values s Hs) in Hx as Hv. apply (handle_counter s Hs) in Hx as Hc.
      destruct Hv as [? Hv], Hc as [? Hc]. split; intros E; congruence.
    + by apply (same_values s Hs x y).
  - intros x y ox oy. rewrite !lookup_insert_Some.
    intros [[<- <-]|[Hx1 Hx]] [[<- <-]|[Hy1 Hy]]; simpl; try done.
    + apply (handle_names s Hs) in Hy as Hv. apply (handle_counter s Hs) in Hy as Hc.
      destruct Hv as [? Hv], Hc as [? Hc]. split; intros E; congruence.
    + apply (handle_names s Hs) in Hx as Hv. apply (handle_counter s Hs) in Hx as Hc.
      destruct Hv as [? Hv], Hc as [? Hc]. split; intros E; congruence.
    + by apply (same_names s Hs x y).
  - intros q c. unfold handles_on. cbn [objects].
    rewrite count_handles_insert_new by done. unfold hits. simpl.
    rewrite lookup_insert_Some. intros [[<- <-]|[Hne Hq]].
    + rewrite decide_True by done.
      pose proof (unallocated_counter_unused s pc Hs Hpc) as H0.
      unfold handles_on in H0. rewrite H0. done.
    + rewrite decide_False by done.
      rewrite (counted s Hs q c Hq). unfold handles_on. f_equal. lia.
  - intros q c. rewrite lookup_insert_Some. intros [[<- <-]|[Hne Hq]]; [lia |].
    by apply (counter_used s Hs q).
  - intros p. rewrite lookup_insert_is_Some. intros [<-|[Hne Hp]].
    + exists this, (Obj pv pn pc). by rewrite lookup_insert_eq.
    + destruct (values_used s Hs p Hp) as (x & o & Hx & Hxo).
      exists x, o. split; [| done]. rewrite lookup_insert_ne; [done |].
      intros <-. congruence.
  - intros p. rewrite lookup_insert_is_Some. intros [<-|[Hne Hp]].
    + exists this, (Obj pv pn pc). by rewrite lookup_insert_eq.
    + destruct (names_used s Hs p Hp) as (x & o & Hx & Hxo).
      exists x, o. split; [| done]. rewrite lookup_insert_ne; [done |].
      intros <-. congruence.
Qed.

Lemma share_block_consistent s x y o c :
  consistent s → objects s !! x = None → objects s !! y = Some o →
  counters s !! m_ref_count o = Some c →
  consistent (share_block s x o c).
Proof.
  intros Hs Hx Hy Hc. unfold share_block.
  split; cbn [objects value_vectors name_vectors counters].
  - intros z oz Hz. apply lookup_insert_is_Some'.
    apply lookup_insert_Some in Hz as [[<- <-]|[Hne Hz]]; [by left |].
    right. by apply (handle_counter s Hs z).
  - intros z oz Hz.
    apply lookup_insert_Some in Hz as [[<- <-]|[Hne Hz]].
    + by apply (handle_values s Hs y).
    + by apply (handle_values s Hs z).
  - intros z oz Hz.
    apply lookup_insert_Some in Hz as [[<- <-]|[Hne Hz]].
    + by apply (handle_names s Hs y).
    + by apply (handle_names s Hs z).
  - intros z w oz ow Hz Hw.
    apply lookup_insert_Some in Hz as [[<- <-]|[Hz1 Hz]];
      apply lookup_insert_Some in Hw as [[<- <-]|[Hw1 Hw]]; try done.
    + by apply (same_values s Hs y w).
    + by apply (same_values s Hs z y).
    + by apply (same_values s Hs z w).
  - intros z w oz ow Hz Hw.
    apply lookup_insert_Some in Hz as [[<- <-]|[Hz1 Hz]];
      apply lookup_insert_Some in Hw as [[<- <-]|[Hw1 Hw]]; try done.
    + by apply (same_names s Hs y w).
    + by apply (same_names s Hs z y).
    + by apply (same_names s Hs z w).
  - intros q d. unfold handles_on. cbn [objects].
    rewrite count_handles_insert_new by done. unfold hits.
    rewrite lookup_insert_Some. intros [[<- <-]|[Hne Hq]].
    + rewrite decide_True by done.
      rewrite (counted s Hs _ c Hc). unfold handles_on. lia.
    + rewrite decide_False by done.
      rewrite (counted s Hs q d Hq). unfold handles_on. f_equal. lia.
  - intros q d. rewrite lookup_insert_Some. intros [[<- <-]|[Hne Hq]].
    + pose proof (counter_used s Hs _ c Hc). lia.
    + by apply (counter_used s Hs q).
  - intros p Hp. destruct (values_used s Hs p Hp) as (z & oz & Hz & Hzo).
    exists z, oz. split; [| done]. rewrite lookup_insert_ne; [done |].
    intros <-. congruence.
  - intros p Hp. destruct (names_used s Hs p Hp) as (z & oz & Hz & Hzo).
    exists z, oz. split; [| done]. rewrite lookup_insert_ne; [done |].
    intros <-. congruence.
Qed.

(* With more than one handle on a counter, another handle is on it too. *)
Lemma other_handle s x o c :
  consistent s → objects s !! x = Some o →
  counters s !! m_ref_count o = Some c → 1 < c →
  ∃ z oz, z ≠ x ∧ objects s !! z = Some oz ∧
          m_ref_count oz = m_ref_count o.
Proof.
  intros Hs Hx Hc Hlt.
  pose proof (counted s Hs _ c Hc) as Hn. unfold handles_on in Hn.
  rewrite (count_handles_delete _ x o _ Hx) in Hn.
  unfold hits in Hn. rewrite decide_True in Hn by done.
  destruct (count_handles_some (delete x (objects s)) (m_ref_count o))
    as (z & oz & Hz & Hzo); [lia |].
  apply lookup_delete_Some in Hz as [Hne Hz]. by exists z, oz.
Qed.

(* With one handle on a counter, no other handle is on it. *)
Lemma sole_handle s x o z oz :
  consistent s → objects s !! x = Some o →
  counters s !! m_ref_count o = Some 1 →
  objects s !! z = Some oz → z ≠ x →
  m_ref_count oz ≠ m_ref_count o ∧ m_values oz ≠ m_values o ∧
  m_names oz ≠ m_names o.
Proof.
  intros Hs Hx Hc Hz Hne.
  assert (Hrc : m_ref_count oz ≠ m_ref_count o).
  { apply (count_handles_one (objects s) x o z oz); try done.
    pose proof (counted s Hs _ 1 Hc) as Hn. unfold handles_on in Hn. lia. }
  split; [done |]. split.
  - intros E. by apply (same_values s Hs z x oz o Hz Hx) in E.
  - intros E. by apply (same_names s Hs z x oz o Hz Hx) in E.
Qed.

Lemma leave_block_consistent s x o c :
  consistent s → objects s !! x = Some o →
  counters s !! m_ref_count o = Some c → 1 < c →
  consistent (leave_block s x o c).
Proof.
  intros Hs Hx Hc Hlt. unfold leave_block.
  destruct (other_handle s x o c Hs Hx Hc Hlt) as (w & ow & Hwx & Hw & Hwo).
  split; cbn [objects value_vectors name_vectors counters].
  - intros z oz Hz. apply lookup_delete_Some in Hz as [Hne Hz].
    apply lookup_insert_is_Some'. right. by apply (handle_counter s Hs z).
  - intros z oz Hz. apply lookup_delete_Some in Hz as [Hne Hz].
    by apply (handle_values s Hs z).
  - intros z oz Hz. apply lookup_delete_Some in Hz as [Hne Hz].
    by apply (handle_names s Hs z).
  - intros z1 z2 o1 o2 H1 H2.
    apply lookup_delete_Some in H1 as [_ H1].
    apply lookup_delete_Some in H2 as [_ H2].
    by apply (same_values s Hs z1 z2).
  - intros z1 z2 o1 o2 H1 H2.
    apply lookup_delete_Some in H1 as [_ H1].
    apply lookup_delete_Some in H2 as [_ H2].
    by apply (same_names s Hs z1 z2).
  - intros q d. unfold handles_on. cbn [objects].
    pose proof (count_handles_delete (objects s) x o q Hx) as Hn.
    unfold hits in Hn.
    rewrite lookup_insert_Some. intros [[<- <-]|[Hne Hq]].
    + rewrite decide_True in Hn by done.
      pose proof (counted s Hs _ c Hc) as Hk. unfold handles_on in Hk. lia.
    + rewrite decide_False in Hn by done.
      rewrite (counted s Hs q d Hq). unfold handles_on. f_equal. lia.
  - intros q d. rewrite lookup_insert_Some. intros [[<- <-]|[Hne Hq]]; [lia |].
    by apply (counter_used s Hs q).
  - intros p Hp. destruct (values_used s Hs p Hp) as (z & oz & Hz & Hzo).
    destruct (decide (z = x)) as [->|Hne].
    + exists w, ow. split; [by rewrite lookup_delete_ne |].
      assert (oz = o) by congruence. subst oz.
      rewrite <- Hzo. by apply (same_values s Hs w x ow o Hw Hx).
    + exists z, oz. split; [by rewrite lookup_delete_ne | done].
  - intros p Hp. destruct (names_used s Hs p Hp) as (z & oz & Hz & Hzo).
    destruct (decide (z = x)) as [->|Hne].
    + exists w, ow. split; [by rewrite lookup_delete_ne |].
      assert (oz = o) by congruence. subst oz.
      rewrite <- Hzo. by apply (same_names s Hs w x ow o Hw Hx).
    + exists z, oz. split; [by rewrite lookup_delete_ne | done].
Qed.

Lemma free_block_consistent s x o :
  consistent s → objects s !! x = Some o →
  counters s !! m_ref_count o = Some 1 →
  consistent (free_block s x o).
Proof.
  intros Hs Hx Hc. unfold free_block.
  pose proof (λ z oz, sole_handle s x o z oz Hs Hx Hc) as Hsole.
  split; cbn [objects value_vectors name_vectors counters].
  - intros z oz Hz. apply lookup_delete_Some in Hz as [Hne Hz].
    destruct (Hsole z oz Hz (not_eq_sym Hne)) as (? & ? & ?).
    rewrite lookup_delete_ne by done. by apply (handle_counter s Hs z).
  - intros z oz Hz. apply lookup_delete_Some in Hz as [Hne Hz].
    destruct (Hsole z oz Hz (not_eq_sym Hne)) as (? & ? & ?).
    rewrite lookup_delete_ne by done. by apply (handle_values s Hs z).
  - intros z oz Hz. apply lookup_delete_Some in Hz as [Hne Hz].
    destruct (Hsole z oz Hz (not_eq_sym Hne)) as (? & ? & ?).
    rewrite lookup_delete_ne by done. by apply (handle_names s Hs z).
  - intros z1 z2 o1 o2 H1 H2.
    apply lookup_delete_Some in H1 as [_ H1].
    apply lookup_delete_Some in H2 as [_ H2].
    by apply (same_values s Hs z1 z2).
  - intros z1 z2 o1 o2 H1 H2.
    apply lookup_delete_Some in H1 as [_ H1].
    apply lookup_delete_Some in H2 as [_ H2].
    by apply (same_names s Hs z1 z2).
  - intros q d Hq. apply lookup_delete_Some in Hq as [Hne Hq].
    unfold handles_on. cbn [objects].
    pose proof (count_handles_delete (objects s) x o q Hx) as Hn.
    unfold hits in Hn. rewrite decide_False in Hn by done.
    rewrite (counted s Hs q d Hq). unfold handles_on. f_equal. lia.
  - intros q d Hq. apply lookup_delete_Some in Hq as [Hne Hq].
    by apply (counter_used s Hs q).
  - intros p Hp. apply lookup_delete_is_Some in Hp as [Hne Hp].
    destruct (values_used s Hs p Hp) as (z & oz & Hz & Hzo).
    exists z, oz. split; [| done]. rewrite lookup_delete_ne; [done |].
    intros <-. congruence.
  - intros p Hp. apply lookup_delete_is_Some in Hp as [Hne Hp].
    destruct (names_used s Hs p Hp) as (z & oz & Hz & Hzo).
    exists z, oz. split; [| done]. rewrite lookup_delete_ne; [done |].
    intros <-. congruence.
Qed.

(* Stores into vectors that are already allocated change none of this. *)
Lemma same_shape_consistent s s' :
  consistent s →
  objects s' = objects s → counters s' = counters s →
  (∀ p, is_Some (value_vectors s' !! p) ↔ is_Some (value_vectors s !! p)) →
  (∀ p, is_Some (name_vectors s' !! p) ↔ is_Some (name_vectors s !! p)) →
  consistent s'.
Proof.
  intros Hs Ho Hc Hv Hn.
  split; unfold handles_on; rewrite ?Ho, ?Hc.
  - apply (handle_counter s Hs).
  - intros x o Hx. apply Hv. by apply (handle_values s Hs x).
  - intros x o Hx. apply Hn. by apply (handle_names s Hs x).
  - apply (same_values s Hs).
  - apply (same_names s Hs).
  - apply (counted s Hs).
  - apply (counter_used s Hs).
  - intros p Hp. apply (values_used s Hs). by apply Hv.
  - intros p Hp. apply (names_used s Hs). by apply Hn.
Qed.

Lemma ctor_consistent s this s' :
  consistent s → ctor this s = Returns tt s' → consistent s'.
Proof.
  intros Hs. unfold ctor. mrun.
  destruct (objects s !! this) as [o|] eqn:Hthis; [done |].
  intros [= <-]. by apply (add_block_consistent s this).
Qed.

(* A counter never exceeds the number of live handles. *)
Lemma counter_bound s pc c :
  consistent s → bounded s → counters s !! pc = Some c →
  0 < c ∧ c + 1 < size_t_modulus.
Proof.
  intros Hs Hb Hc. split; [by apply (counter_used s Hs pc) |].
  rewrite (counted s Hs pc c Hc). unfold handles_on, bounded in *.
  pose proof (count_handles_le (objects s) pc). lia.
Qed.

(* Copy construction: the new handle gets the source's three pointers and
   the shared counter goes up by one; no vector is allocated or copied. *)
Lemma copy_ctor_spec s this other o :
  consistent s → bounded s →
  objects s !! this = None → objects s !! other = Some o →
  ∃ c, counters s !! m_ref_count o = Some c ∧
       copy_ctor this other s = Returns tt (share_block s this o c) ∧
       consistent (share_block s this o c).
Proof.
  intros Hs Hb Hthis Hother.
  destruct (handle_counter s Hs other o Hother) as [c Hc].
  destruct (counter_bound s _ c Hs Hb Hc) as [Hlo Hhi].
  exists c. split; [done |]. split.
  - unfold copy_ctor. mrun. destruct o as [pv pn pc]. repeat mstep.
    unfold share_block. cbn [m_values m_names m_ref_count].
    rewrite wrap_small by lia. done.
  - by apply (share_block_consistent s this other).
Qed.

(* Destruction: the counter goes down by one; the three objects of the
   block are freed exactly when it was 1, that is when it reaches zero. *)
Lemma dtor_spec s this o :
  consistent s → bounded s → objects s !! this = Some o →
  ∃ c, counters s !! m_ref_count o = Some c ∧
       ((c = 1 ∧ dtor this s = Returns tt (free_block s this o) ∧
         consistent (free_block s this o)) ∨
        (1 < c ∧ dtor this s = Returns tt (leave_block s this o c) ∧
         consistent (leave_block s this o c))).
Proof.
  intros Hs Hb Hthis.
  destruct (handle_counter s Hs this o Hthis) as [c Hc].
  destruct (handle_values s Hs this o Hthis) as [vs Hv].
  destruct (handle_names s Hs this o Hthis) as [ns Hn].
  destruct (counter_bound s _ c Hs Hb Hc) as [Hlo Hhi].
  exists c. split; [done |].
  assert (Hw : wrap (c - 1) = c - 1) by (apply wrap_small; lia).
  destruct (decide (c = 1)) as [->|Hne]; [left | right].
  - split; [done |]. split; [| by apply free_block_consistent].
    unfold dtor. mrun. rewrite Hw. simpl. repeat mstep.
    unfold free_block. by rewrite delete_insert_eq.
  - split; [lia |]. split; [| apply leave_block_consistent; [done .. | lia]].
    unfold dtor. mrun. rewrite Hw.
    destruct (decide (c - 1 = 0)) as [E|_]; [lia |]. repeat mstep.
    done.
Qed.

(* Detaching: the handle ends as the only one on its block, the block
   holds what it held, and every other handle is where it was. *)
Lemma detach_post s this o :
  consistent s → bounded s → objects s !! this = Some o →
  ∃ s1 o1 vs vs1 ns ns1,
    detach this s = Returns tt s1 ∧
    consistent s1 ∧
    base.size (objects s1) = base.size (objects s) ∧
    value_vectors s !! m_values o = Some vs ∧
    name_vectors s !! m_names o = Some ns ∧
    objects s1 !! this = Some o1 ∧
    counters s1 !! m_ref_count o1 = Some 1 ∧
    value_vectors s1 !! m_values o1 = Some vs1 ∧
    name_vectors s1 !! m_names o1 = Some ns1 ∧
    Std.elems vs1 = Std.elems vs ∧
    Std.elems ns1 = Std.elems ns ∧
    (∀ x, x ≠ this → objects s1 !! x = objects s !! x) ∧
    (∀ x ox, objects s !! x = Some ox →
       value_vectors s1 !! m_values ox = value_vectors s !! m_values ox ∧
       name_vectors s1 !! m_names ox = name_vectors s !! m_names ox).
Proof.
  intros Hs Hb Hthis.
  destruct (handle_counter s Hs this o Hthis) as [c Hc].
  destruct (handle_values s Hs this o Hthis) as [vs Hv].
  destruct (handle_names s Hs this o Hthis) as [ns Hn].
  destruct (counter_bound s _ c Hs Hb Hc) as [Hlo Hhi].
  destruct (decide (c = 1)) as [->|Hne].
  - exists s, o, vs, vs, ns, ns.
    rewrite (detach_exclusive s this o 1) by (done || lia).
    split_and!; done.
  - assert (Hlt : 1 < c) by lia.
    pose proof (fresh_ne_present _ _ _ Hv) as Nv.
    pose proof (fresh_ne_present _ _ _ Hn) as Nn.
    assert (Heq : detached s this o c vs ns
                  = add_block (leave_block s this o c) this
                      (Std.copy vs) (Std.copy ns)).
    { unfold detached, add_block, leave_block.
      cbn [objects value_vectors name_vectors counters].
      rewrite insert_delete_eq, (dom_insert_present _ _ c) by done.
      rewrite wrap_small by lia. done. }
    exists (detached s this o c vs ns),
      (Obj (fresh (dom (value_vectors s))) (fresh (dom (name_vectors s)))
           (fresh (dom (counters s)))),
      vs, (Std.copy vs), ns, (Std.copy ns).
    rewrite (detach_shared s this o c vs ns) by done.
    split; [done |]. split.
    { rewrite Heq. apply add_block_consistent.
      - by apply leave_block_consistent.
      - apply lookup_delete_eq. }
    unfold detached; cbn [objects value_vectors name_vectors counters
                          m_values m_names m_ref_count].
    rewrite !lookup_insert_eq.
    split_and!; try done.
    + apply map_size_insert_Some. eauto.
    + intros x Hx. by rewrite lookup_insert_ne.
    + intros x ox Hx.
      destruct (handle_values s Hs x ox Hx) as [? Hxv].
      destruct (handle_names s Hs x ox Hx) as [? Hxn].
      rewrite !lookup_insert_ne; [done | |].
      * by apply (fresh_ne_present _ _ _ Hxn).
      * by apply (fresh_ne_present _ _ _ Hxv).
Qed.

Lemma contents_unchanged s s' x :
  objects s' !! x = objects s !! x →
  (∀ ox, objects s !! x = Some ox →
     value_vectors s' !! m_values ox = value_vectors s !! m_values ox ∧
     name_vectors s' !! m_names ox = name_vectors s !! m_names ox) →
  contents s' x = contents s x.
Proof.
  intros Ho Hb. unfold contents. rewrite Ho.
  destruct (objects s !! x) as [ox|]; [| done]. simpl.
  destruct (Hb ox eq_refl) as [-> ->]. done.
Qed.

(* Replacing the two vectors of a block that has a single handle. *)
Lemma update_block s this o vs ns vs' ns' :
  consistent s → objects s !! this = Some o →
  counters s !! m_ref_count o = Some 1 →
  value_vectors s !! m_values o = Some vs →
  name_vectors s !! m_names o = Some ns →
  let s' := State (objects s) (<[m_values o := vs']> (value_vectors s))
                  (<[m_names o := ns']> (name_vectors s)) (counters s) in
  consistent s' ∧
  contents s' this = Some (Std.elems vs', Std.elems ns') ∧
  ∀ x, x ≠ this → contents s' x = contents s x.
Proof.
  intros Hs Hthis Hc Hv Hn s'. split_and!.
  - apply (same_shape_consistent s); [done | done | done | |];
      intros p; subst s'; cbn [value_vectors name_vectors];
      rewrite lookup_insert_is_Some'; split; eauto.
    + intros [<-|H]; eauto.
    + intros [<-|H]; eauto.
  - unfold contents. subst s'. cbn [objects value_vectors name_vectors].
    rewrite Hthis. simpl. by rewrite !lookup_insert_eq.
  - intros x Hx. apply contents_unchanged; [done |].
    intros ox Hox. subst s'. cbn [value_vectors name_vectors].
    destruct (sole_handle s this o x ox Hs Hthis Hc Hox Hx) as (_ & Hv' & Hn').
    by rewrite !lookup_insert_ne.
Qed.

(* What the handles read after a handle is added or removed. *)
Lemma add_block_contents s this vs ns :
  consistent s → objects s !! this = None →
  contents (add_block s this vs ns) this = Some (Std.elems vs, Std.elems ns) ∧
  ∀ x, x ≠ this → contents (add_block s this vs ns) x = contents s x.
Proof.
  intros Hs Hthis. split.
  - unfold contents, add_block. cbn [objects value_vectors name_vectors].
    rewrite lookup_insert_eq. simpl. by rewrite !lookup_insert_eq.
  - intros x Hx. apply contents_unchanged.
    + unfold add_block. cbn [objects]. by rewrite lookup_insert_ne.
    + intros ox Hox. unfold add_block. cbn [value_vectors name_vectors].
      destruct (handle_values s Hs x ox Hox) as [? Hxv].
      destruct (handle_names s Hs x ox Hox) as [? Hxn].
      rewrite !lookup_insert_ne; [done | |].
      * by apply (fresh_ne_present _ _ _ Hxn).
      * by apply (fresh_ne_present _ _ _ Hxv).
Qed.

Lemma share_block_contents s this other o c :
  objects s !! this = None → objects s !! other = Some o →
  contents (share_block s this o c) this = contents s other ∧
  ∀ x, x ≠ this → contents (share_block s this o c) x = contents s x.
Proof.
  intros Hthis Hother. split.
  - unfold contents, share_block. cbn [objects value_vectors name_vectors].
    by rewrite lookup_insert_eq, Hother.
  - intros x Hx. unfold contents, share_block.
    cbn [objects value_vectors name_vectors]. by rewrite lookup_insert_ne.
Qed.

Lemma leave_block_contents s this o c :
  contents (leave_block s this o c) this = None ∧
  ∀ x, x ≠ this → contents (leave_block s this o c) x = contents s x.
Proof.
  split.
  - unfold contents, leave_block. cbn [objects]. by rewrite lookup_delete_eq.
  - intros x Hx. unfold contents, leave_block.
    cbn [objects value_vectors name_vectors]. by rewrite lookup_delete_ne.
Qed.

(* The last handle on a block frees it, and no other handle loses what it
   reads. *)
Lemma free_block_contents s this o :
  consistent s → objects s !! this = Some o →
  counters s !! m_ref_count o = Some 1 →
  contents (free_block s this o) this = None ∧
  ∀ x, x ≠ this → contents (free_block s this o) x = contents s x.
Proof.
  intros Hs Hthis Hc. split.
  - unfold contents, free_block. cbn [objects]. by rewrite lookup_delete_eq.
  - intros x Hx. apply contents_unchanged.
    + unfold free_block. cbn [objects]. by rewrite lookup_delete_ne.
    + intros ox Hox. unfold free_block. cbn [value_vectors name_vectors].
      destruct (sole_handle s this o x ox Hs Hthis Hc Hox Hx) as (_ & Hv & Hn).
      by rewrite !lookup_delete_ne.
Qed.

(* Detaching and then replacing the two vectors of the handle's block:
   what every detaching mutator does. *)
Lemma detach_then_update s this o
    (f : Std.vector T → Std.vector T)
    (g : Std.vector string → Std.vector string) :
  consistent s → bounded s → objects s !! this = Some o →
  ∃ s1 o1 vs ns vs1 ns1,
    detach this s = Returns tt s1 ∧
    consistent s1 ∧
    objects s1 !! this = Some o1 ∧
    value_vectors s1 !! m_values o1 = Some vs1 ∧
    name_vectors s1 !! m_names o1 = Some ns1 ∧
    counters s1 !! m_ref_count o1 = Some 1 ∧
    base.size (objects s1) = base.size (objects s) ∧
    contents s this = Some (Std.elems vs, Std.elems ns) ∧
    Std.elems vs1 = Std.elems vs ∧
    Std.elems ns1 = Std.elems ns ∧
    (∀ x, x ≠ this → contents s1 x = contents s x) ∧
    let s' := State (objects s1) (<[m_values o1 := f vs1]> (value_vectors s1))
                    (<[m_names o1 := g ns1]> (name_vectors s1)) (counters s1) in
    consistent s' ∧
    contents s' this = Some (Std.elems (f vs1), Std.elems (g ns1)) ∧
    ∀ x, x ≠ this → contents s' x = contents s x.
Proof.
  intros Hs Hb Hthis.
  destruct (detach_post s this o Hs Hb Hthis)
    as (s1 & o1 & vs & vs1 & ns & ns1 & Hd & Hs1 & Hsz & Hv & Hn & Ho1 & Hc1
        & Hv1 & Hn1 & Hev & Hen & Hobj & Hblk).
  exists s1, o1, vs, ns, vs1, ns1.
  assert (Hframe : ∀ x, x ≠ this → contents s1 x = contents s x).
  { intros x Hx. apply contents_unchanged; [by apply Hobj | apply Hblk]. }
  split_and!; try done.
  { unfold contents. rewrite Hthis. simpl. by rewrite Hv, Hn. }
  destruct (update_block s1 this o1 vs1 ns1 (f vs1) (g ns1) Hs1 Ho1 Hc1 Hv1 Hn1)
    as (Hs' & Hthis' & Hothers).
  split_and!; try done.
  intros x Hx. rewrite Hothers by done. by apply Hframe.
Qed.

End Invariant.

Section Mutators.

Context {T : Type} (grow : nat → nat) (lim : Std.limits).
Implicit Types (s : state T) (this x : loc) (o : MyVector).

(* push_back on a live handle of a consistent store returns; afterwards the
   handle reads its former entries followed by the new one, and every
   other handle reads what it read before. *)
Lemma push_back_spec s this o (value : T) (name : string) :
  consistent s → bounded s → objects s !! this = Some o →
  ∃ s' values names,
    contents s this = Some (values, names) ∧
    push_back grow this value name s = Returns tt s' ∧
    consistent s' ∧
    base.size (objects s') = base.size (objects s) ∧
    contents s' this = Some (values ++ [value], names ++ [name]) ∧
    ∀ x, x ≠ this → contents s' x = contents s x.
Proof.
  intros Hs Hb Hthis.
  destruct (detach_then_update s this o
              (λ v, Std.push_back grow v value)
              (λ v, Std.push_back grow v name) Hs Hb Hthis)
    as (s1 & o1 & vs & ns & vs1 & ns1 & Hd & Hs1 & Ho1 & Hv1 & Hn1 & Hc1 & Hsz
        & Hcont & Hev & Hen & _ & Hs' & Hthis' & Hothers).
  eexists _, (Std.elems vs), (Std.elems ns).
  split; [done |]. split.
  { unfold push_back. unfold_prims. rewrite Hd. repeat mstep. reflexivity. }
  split; [done |]. split; [done |]. split; [| done].
  rewrite Hthis'. simpl. by rewrite Hev, Hen.
Qed.

(* clear, likewise: the handle reads nothing afterwards. *)
Lemma clear_spec s this o :
  consistent s → bounded s → objects s !! this = Some o →
  ∃ s',
    clear this s = Returns tt s' ∧
    consistent s' ∧
    base.size (objects s') = base.size (objects s) ∧
    contents s' this = Some ([], []) ∧
    ∀ x, x ≠ this → contents s' x = contents s x.
Proof.
  intros Hs Hb Hthis.
  destruct (detach_then_update s this o Std.clear Std.clear Hs Hb Hthis)
    as (s1 & o1 & vs & ns & vs1 & ns1 & Hd & Hs1 & Ho1 & Hv1 & Hn1 & Hc1 & Hsz
        & Hcont & Hev & Hen & _ & Hs' & Hthis' & Hothers).
  eexists. split.
  { unfold clear. unfold_prims. rewrite Hd. repeat mstep. reflexivity. }
  done.
Qed.

Lemma detach_dead s this :
  objects s !! this = None → detach this s = Undefined.
Proof. intros H. unfold detach. by mrun. Qed.

(* Detaching and then only reading: what the non-const accessors do. *)
Lemma detach_then_read {A} s this o (k : M T A) :
  consistent s → bounded s → objects s !! this = Some o → read_only k →
  match (detach this ;; k) s with
  | Returns _ s' | Throws _ s' =>
      consistent s' ∧
      base.size (objects s') = base.size (objects s) ∧
      ref_count s' this = Some 1 ∧
      ∀ x, contents s' x = contents s x
  | Undefined => True
  end.
Proof.
  intros Hs Hb Hthis Hk.
  destruct (detach_post s this o Hs Hb Hthis)
    as (s1 & o1 & vs & vs1 & ns & ns1 & Hd & Hs1 & Hsz & Hv & Hn & Ho1 & Hc1
        & Hv1 & Hn1 & Hev & Hen & Hobj & Hblk).
  assert (Hall : ∀ x, contents s1 x = contents s x).
  { intros x. destruct (decide (x = this)) as [->|Hx].
    - unfold contents. rewrite Ho1, Hthis. simpl.
      rewrite Hv1, Hn1, Hv, Hn. simpl. by rewrite Hev, Hen.
    - apply contents_unchanged; [by apply Hobj | apply Hblk]. }
  assert (Hrc : ref_count s1 this = Some 1).
  { unfold ref_count. rewrite Ho1. simpl. done. }
  unfold bind. rewrite Hd. specialize (Hk s1).
  destruct (k s1) as [r s'| e s' |]; [subst s' .. | done]; done.
Qed.

Lemma index_tail_read_only this index :
  read_only (T:=T)
    (pv' <- get_values this ;;
     e <- value_ref pv' index ;;
     pn' <- get_names this ;;
     n <- name_ref pn' index ;;
     ret (Deref e, n)).
Proof.
  pose proof (@value_ref_read_only T). pose proof (@name_ref_read_only T).
  unfold get_values, get_names. readonly.
Qed.

Lemma begin_tail_read_only this :
  read_only (T:=T)
    (pv <- get_values this ;; _ <- load_values pv ;; ret (pv, 0%nat)).
Proof. unfold get_values. readonly. Qed.

Lemma end_tail_read_only this :
  read_only (T:=T)
    (pv <- get_values this ;; vs <- load_values pv ;; ret (pv, Std.size vs)).
Proof. unfold get_values. readonly. Qed.

Lemma discard_result {A} (m : M T A) (P : state T → Prop) s :
  match m s with
  | Returns _ s' | Throws _ s' => P s'
  | Undefined => True
  end →
  match (_ <- m ;; ret tt) s with
  | Returns _ s' | Throws _ s' => P s'
  | Undefined => True
  end.
Proof. unfold bind, ret. by destruct (m s). Qed.

(* Every mutating call on a live handle of a consistent store leaves the
   store consistent and leaves what every other handle reads unchanged. *)
Lemma mutate_spec s this (m : mutation T) :
  consistent s → bounded s →
  match mutate grow lim this m s with
  | Returns _ s' | Throws _ s' => mutate_post s this m s'
  | Undefined => True
  end.
Proof.
  intros Hs Hb.
  destruct (objects s !! this) as [o|] eqn:Hthis.
  2:{ destruct m; unfold mutate, push_back, clear, reserve, reserve_values,
        reserve_names, index_mut, begin, end_; unfold_prims;
        rewrite ?(detach_dead s this Hthis);
        repeat mstep; done. }
  destruct (handle_values s Hs this o Hthis) as [vs Hv].
  destruct (handle_names s Hs this o Hthis) as [ns Hn].
  assert (Hread : ∀ A (k : M T A), read_only k →
            match (_ <- (detach this ;; k) ;; ret tt) s with
            | Returns _ s' | Throws _ s' =>
                consistent s' ∧
                base.size (objects s') = base.size (objects s) ∧
                (∀ x, x ≠ this → contents s' x = contents s x) ∧
                contents s' this = contents s this
            | Undefined => True
            end).
  { intros A k Hk.
    apply (discard_result (detach this ;; k)
             (λ s', consistent s' ∧
                    base.size (objects s') = base.size (objects s) ∧
                    (∀ x, x ≠ this → contents s' x = contents s x) ∧
                    contents s' this = contents s this)).
    pose proof (detach_then_read s this o k Hs Hb Hthis Hk) as H.
    destruct ((detach this ;; k) s) as [r s'| e s' |]; [| | done];
      destruct H as (? & ? & _ & Hall); split_and!; try done;
      intros x _; apply Hall. }
  destruct m as [value name| |n|index| |]; unfold mutate, mutate_post.
  - destruct (push_back_spec s this o value name Hs Hb Hthis)
      as (s' & values & names & Hc0 & -> & Hs' & Hsz & Hthis' & Hothers).
    split_and!; try done. by exists values, names.
  - destruct (clear_spec s this o Hs Hb Hthis)
      as (s' & -> & Hs' & Hsz & Hthis' & Hothers).
    done.
  - destruct (Nat.ltb_spec (Std.max_size_values lim) n) as [Hmv|Hmv].
    { by rewrite (reserve_throws_at_values lim s this o vs n Hthis Hv Hmv). }
    destruct (Nat.ltb_spec (Std.max_size_names lim) n) as [Hmn|Hmn].
    + rewrite (reserve_throws_at_names lim s this o vs ns n
                 Hthis Hv Hn Hmv Hmn).
      split; [| split; [done | split; [intros x _ |]];
                by apply (reserve_values_contents s o vs)].
      apply (same_shape_consistent s); [done | done | done | | done].
      intros p; cbn [value_vectors];
        rewrite lookup_insert_is_Some'; split; eauto.
      intros [<-|H]; eauto.
    + rewrite (reserve_runs lim s this o vs ns n Hthis Hv Hn Hmv Hmn).
      split; [| split; [done | split; [intros x _ |]];
                by apply reserve_contents].
      apply (same_shape_consistent s); [done | done | done | |];
        intros p; cbn [value_vectors name_vectors];
        rewrite lookup_insert_is_Some'; split; eauto.
      * intros [<-|H]; eauto.
      * intros [<-|H]; eauto.
  - unfold index_mut. unfold get_values at 1. unfold load_values at 1.
    unfold bind at 1 2 3 4, read_object at 1, ret at 1 2. rewrite Hthis.
    cbn [m_values]. rewrite Hv.
    destruct (Std.size vs <=? index)%nat; [done |].
    apply (Hread _ _ (index_tail_read_only this index)).
  - apply (Hread _ _ (begin_tail_read_only this)).
  - apply (Hread _ _ (end_tail_read_only this)).
Qed.

(* The non-const positional access within range, where the two vectors
   of the block have the same length: it returns, the handle is then the
   only one on its block, and the pair it returns is the starred element
   and the name at that index of the handle's block. *)
Lemma index_mut_in_range s this o vs ns index :
  consistent s → bounded s → objects s !! this = Some o →
  value_vectors s !! m_values o = Some vs →
  name_vectors s !! m_names o = Some ns →
  (index < length (Std.elems vs))%nat →
  length (Std.elems ns) = length (Std.elems vs) →
  ∃ s' o',
    index_mut this index s
    = Returns (Deref (ElemOf (m_values o') index), NameOf (m_names o') index) s' ∧
    detach this s = Returns tt s' ∧
    objects s' !! this = Some o' ∧
    ref_count s' this = Some 1 ∧
    ∀ x, contents s' x = contents s x.
Proof.
  intros Hs Hb Hthis Hv Hn Hi Hlen.
  destruct (detach_post s this o Hs Hb Hthis)
    as (s1 & o1 & vs0 & vs1 & ns0 & ns1 & Hd & Hs1 & Hsz & Hv0 & Hn0 & Ho1
        & Hc1 & Hv1 & Hn1 & Hev & Hen & Hobj & Hblk).
  assert (vs0 = vs) by congruence. assert (ns0 = ns) by congruence.
  subst vs0 ns0.
  pose proof (detach_then_read s this o (ret tt) Hs Hb Hthis
                (ret_read_only tt)) as Hread.
  unfold bind, ret in Hread. rewrite Hd in Hread.
  destruct Hread as (_ & _ & Hrc & Hall).
  exists s1, o1. split_and!; try done.
  unfold index_mut. unfold_prims. repeat mstep. unfold Std.size.
  destruct (Nat.leb_spec (length (Std.elems vs)) index); [lia |].
  rewrite Hd. repeat mstep. rewrite Hev.
  destruct (Nat.ltb_spec index (length (Std.elems vs))); [| lia].
  repeat mstep. rewrite Hen, Hlen.
  by destruct (Nat.ltb_spec index (length (Std.elems vs))); [| lia].
Qed.

Lemma run_call_consistent s (c : call T) :
  consistent s → bounded s →
  match run_call grow lim c s with
  | Returns _ s' | Throws _ s' => consistent s'
  | Undefined => True
  end.
Proof.
  intros Hs Hb. destruct c as [x|x other|x|x m|x a]; unfold run_call.
  - destruct (ctor x s) as [[] s'| e s' |] eqn:E; [| | done].
    + by apply (ctor_consistent s x).
    + revert E. unfold ctor. mrun. by destruct (objects s !! x).
  - destruct (objects s !! other) as [o|] eqn:Ho.
    2:{ unfold copy_ctor. by mrun. }
    destruct (objects s !! x) as [ox|] eqn:Hx.
    { unfold copy_ctor. by mrun. }
    destruct (copy_ctor_spec s x other o Hs Hb Hx Ho) as (c & _ & -> & Hs').
    done.
  - destruct (objects s !! x) as [o|] eqn:Hx.
    2:{ unfold dtor. by mrun. }
    destruct (dtor_spec s x o Hs Hb Hx)
      as (c & _ & [(_ & -> & Hs')|(_ & -> & Hs')]); done.
  - pose proof (mutate_spec s x m Hs Hb) as H.
    destruct (mutate grow lim x m s); [| | done]; by destruct H.
  - pose proof (perform_read_only (T:=T) x a s) as H.
    destruct (perform x a s); [| | done]; by subst.
Qed.

(* The reference-count invariant of the class: in every reachable store
   each counter holds the number of live handles that point to it. *)
Lemma reachable_consistent s : reachable grow lim s → consistent s.
Proof.
  induction 1 as [|s c s' _ IH Hb Hrun|s c e s' _ IH Hb Hrun].
  - apply consistent_initial.
  - pose proof (run_call_consistent s c IH Hb) as H. by rewrite Hrun in H.
  - pose proof (run_call_consistent s c IH Hb) as H. by rewrite Hrun in H.
Qed.

Lemma reachable_counted s x o :
  reachable grow lim s → objects s !! x = Some o →
  counters s !! m_ref_count o
  = Some (Z.of_nat (handles_on s (m_ref_count o))) ∧
  (1 ≤ handles_on s (m_ref_count o))%nat.
Proof.
  intros Hr Hx. apply reachable_consistent in Hr as Hs.
  destruct (handle_counter s Hs x o Hx) as [c Hc].
  rewrite Hc, (counted s Hs _ c Hc). split; [done |].
  by apply (count_handles_pos (objects s) x).
Qed.

(* The two vectors of every block keep the same length. *)
Lemma run_call_paired s (c : call T) :
  consistent s → bounded s → paired s →
  match run_call grow lim c s with
  | Returns _ s' | Throws _ s' => paired s'
  | Undefined => True
  end.
Proof.
  intros Hs Hb Hp. destruct c as [x|x other|x|x m|x a]; unfold run_call.
  - unfold ctor. mrun.
    destruct (objects s !! x) as [o|] eqn:Hx; [done |].
    destruct (add_block_contents s x Std.empty_vector Std.empty_vector Hs Hx)
      as [Hthis Hothers].
    intros y values names. destruct (decide (y = x)) as [->|Hy].
    + unfold add_block in Hthis. rewrite Hthis. by intros [= <- <-].
    + unfold add_block in Hothers. rewrite (Hothers y Hy). apply Hp.
  - destruct (objects s !! other) as [o|] eqn:Ho.
    2:{ unfold copy_ctor. by mrun. }
    destruct (objects s !! x) as [ox|] eqn:Hx.
    { unfold copy_ctor. by mrun. }
    destruct (copy_ctor_spec s x other o Hs Hb Hx Ho) as (c & _ & -> & _).
    destruct (share_block_contents s x other o c Hx Ho) as [Hthis Hothers].
    intros y values names. destruct (decide (y = x)) as [->|Hy].
    + rewrite Hthis. apply Hp.
    + rewrite (Hothers y Hy). apply Hp.
  - destruct (objects s !! x) as [o|] eqn:Hx.
    2:{ unfold dtor. by mrun. }
    destruct (dtor_spec s x o Hs Hb Hx)
      as (c & Hc & [(-> & -> & _)|(_ & -> & _)]).
    + destruct (free_block_contents s x o Hs Hx Hc) as [Hthis Hothers].
      intros y values names. destruct (decide (y = x)) as [->|Hy].
      * by rewrite Hthis.
      * rewrite (Hothers y Hy). apply Hp.
    + destruct (leave_block_contents s x o c) as [Hthis Hothers].
      intros y values names. destruct (decide (y = x)) as [->|Hy].
      * by rewrite Hthis.
      * rewrite (Hothers y Hy). apply Hp.
  - pose proof (mutate_spec s x m Hs Hb) as H.
    assert (Hpost : ∀ s', mutate_post s x m s' → paired s').
    { intros s' (_ & _ & Hothers & Hthis) y values names.
      destruct (decide (y = x)) as [->|Hy]; [| rewrite (Hothers y Hy); apply Hp].
      destruct m as [value name| |n|index| |]; try (rewrite Hthis; apply Hp).
      - destruct Hthis as (vals & nams & Hbefore & ->).
        intros [= <- <-]. rewrite !length_app. simpl.
        by rewrite (Hp x vals nams Hbefore).
      - rewrite Hthis. by intros [= <- <-]. }
    destruct (mutate grow lim x m s); [| | done]; by apply Hpost.
  - pose proof (perform_read_only (T:=T) x a s) as H.
    destruct (perform x a s); [| | done]; by subst.
Qed.

Lemma reachable_paired s : reachable grow lim s → paired s.
Proof.
  induction 1 as [|s c s' Hr IH Hb Hrun|s c e s' Hr IH Hb Hrun].
  - intros x values names. unfold contents. simpl.
    by rewrite lookup_empty.
  - pose proof (run_call_paired s c (reachable_consistent s Hr) Hb IH) as H.
    by rewrite Hrun in H.
  - pose proof (run_call_paired s c (reachable_consistent s Hr) Hb IH) as H.
    by rewrite Hrun in H.
Qed.

(* Copy-on-write after copy construction: whatever mutating call is then
   made on the copy, the source reads what it read before, and whatever
   is made on the source, the copy reads what the source read before. *)
Lemma copy_then_mutate s a b o (m : mutation T) :
  consistent s →
  Z.of_nat (base.size (objects s)) + 2 < size_t_modulus →
  objects s !! a = Some o → objects s !! b = None →
  ∃ s1,
    copy_ctor b a s = Returns tt s1 ∧
    contents s1 a = contents s a ∧
    contents s1 b = contents s a ∧
    match mutate grow lim b m s1 with
    | Returns _ s2 | Throws _ s2 => contents s2 a = contents s a
    | Undefined => True
    end ∧
    match mutate grow lim a m s1 with
    | Returns _ s2 | Throws _ s2 => contents s2 b = contents s a
    | Undefined => True
    end.
Proof.
  intros Hs Hsz Ha Hb.
  assert (Hbd : bounded s) by (unfold bounded; lia).
  assert (Hab : a ≠ b) by (intros ->; congruence).
  destruct (copy_ctor_spec s b a o Hs Hbd Hb Ha) as (c & Hc & Hrun & Hs1).
  exists (share_block s b o c). split; [done |].
  assert (Hbd1 : bounded (share_block s b o c)).
  { unfold bounded, share_block. cbn [objects].
    rewrite map_size_insert_None by done. lia. }
  assert (Hca : contents (share_block s b o c) a = contents s a).
  { unfold contents, share_block. cbn [objects value_vectors name_vectors].
    by rewrite lookup_insert_ne. }
  assert (Hcb : contents (share_block s b o c) b = contents s a).
  { unfold contents, share_block. cbn [objects value_vectors name_vectors].
    by rewrite lookup_insert_eq, Ha. }
  split; [done |]. split; [done |]. split.
  - pose proof (mutate_spec (share_block s b o c) b m Hs1 Hbd1) as H.
    destruct (mutate grow lim b m _); [| | done];
      destruct H as (_ & _ & H & _); by rewrite (H a Hab).
  - pose proof (mutate_spec (share_block s b o c) a m Hs1 Hbd1) as H.
    destruct (mutate grow lim a m _); [| | done];
      destruct H as (_ & _ & H & _); by rewrite (H b (not_eq_sym Hab)).
Qed.

End Mutators.

(* ===================================================================== *)
(* The claims                                                            *)
(* ===================================================================== *)

(** C1. After [MyVector<T> a; MyVector<T> b; b = a;] two live handles
    point to the block of [a] while its counter is still 1, and the block
    [b] was constructed with keeps counter 1 with no handle left on it.
    Destroying [a] then frees the block [b] still points to, and the
    destructor of [b] has no defined behaviour.  The store after the
    assignment is not consistent, where every store reached without the
    assignment is ([reachable_consistent]). *)
Theorem copy_assignment_breaks_count {T} :
  assign_program (T:=T) initial_state = Returns tt assigned_pair ∧
  objects (assigned_pair (T:=T)) !! a = Some (Obj p1 p1 p1) ∧
  objects (assigned_pair (T:=T)) !! b = Some (Obj p1 p1 p1) ∧
  handles_on (assigned_pair (T:=T)) p1 = 2%nat ∧
  counters (assigned_pair (T:=T)) !! p1 = Some 1 ∧
  handles_on (assigned_pair (T:=T)) p2 = 0%nat ∧
  counters (assigned_pair (T:=T)) !! p2 = Some 1 ∧
  (∃ s', dtor a (assigned_pair (T:=T)) = Returns tt s' ∧
         objects s' !! b = Some (Obj p1 p1 p1) ∧
         counters s' !! p1 = None ∧
         value_vectors s' !! p1 = None ∧
         name_vectors s' !! p1 = None ∧
         dtor b s' = Undefined) ∧
  ¬ consistent (assigned_pair (T:=T)).
Proof.
  do 7 (split; [vm_compute; reflexivity |]).
  split.
  - eexists. split; [vm_compute; reflexivity |].
    split_and!; vm_compute; reflexivity.
  - intros Hs.
    assert (Hc : counters (assigned_pair (T:=T)) !! p1 = Some 1)
      by (vm_compute; reflexivity).
    apply (counted _ Hs) in Hc.
    assert (Hn : handles_on (assigned_pair (T:=T)) p1 = 2%nat)
      by (vm_compute; reflexivity).
    rewrite Hn in Hc. discriminate.
Qed.

(** C2. On a block shared by two handles the non-const lookup by name
    returns its reference without detaching: the store is unchanged, the
    counter of the handle's block is still 2, and the reference designates
    an element of the vector that the other handle points to as well.  On
    no store does the non-const lookup by name change anything.  The
    lookup the specification words detaches here and returns a reference
    into the new block, whose counter is 1. *)
Theorem name_mut_does_not_detach {T} (x : T) :
  copy_program x initial_state = Returns tt (shared_pair x) ∧
  name_mut b "a" (shared_pair x) = Returns (ElemOf p1 0) (shared_pair x) ∧
  ref_count (shared_pair x) b = Some 2 ∧
  m_values <$> objects (shared_pair x) !! a = Some p1 ∧
  m_values <$> objects (shared_pair x) !! b = Some p1 ∧
  (∃ s', name_mut_as_specified b "a" (shared_pair x)
           = Returns (ElemOf p2 0) s' ∧
         ref_count s' b = Some 1 ∧
         m_values <$> objects s' !! a = Some p1 ∧
         m_values <$> objects s' !! b = Some p2) ∧
  ∀ (s : state T) this name r s',
    name_mut this name s = Returns r s' → s' = s.
Proof.
  do 5 (split; [vm_compute; reflexivity |]).
  split.
  - eexists. split; [vm_compute; reflexivity |].
    split_and!; vm_compute; reflexivity.
  - intros s this name r s' H.
    pose proof (name_mut_read_only (T:=T) this name s) as Hro.
    by rewrite H in Hro.
Qed.

(** C3. After [MyVector<T> b(a)], assigning through the reference that
    [b["a"]] returns changes the value read through [a] (with the lookup
    the specification words, it would not); and after [b = a],
    [b.push_back(y, "n")] changes the values and names read through [a].
    For the other mutating calls after copy construction see
    [copy_then_mutate]. *)
Theorem sibling_sees_write {T} (x y : T) :
  contents (shared_pair x) a = Some ([x], ["a"]) ∧
  (∃ s', (r <- name_mut b "a" ;; assign_value r y) (shared_pair x)
           = Returns tt s' ∧
         contents s' a = Some ([y], ["a"]) ∧
         contents s' b = Some ([y], ["a"])) ∧
  (∃ s', (r <- name_mut_as_specified b "a" ;; assign_value r y) (shared_pair x)
           = Returns tt s' ∧
         contents s' a = Some ([x], ["a"]) ∧
         contents s' b = Some ([y], ["a"])) ∧
  contents (assigned_pair (T:=T)) a = Some ([], []) ∧
  (∃ s', push_back doubling b y "n" assigned_pair = Returns tt s' ∧
         contents s' a = Some ([y], ["n"])).
Proof.
  split; [vm_compute; reflexivity |].
  split; [eexists; split; [| split]; vm_compute; reflexivity |].
  split; [eexists; split; [| split]; vm_compute; reflexivity |].
  split; [vm_compute; reflexivity |].
  eexists; split; vm_compute; reflexivity.
Qed.

(** C4. On an exclusively owned three-entry container the non-const
    positional access at index 2 returns, as its first component, the
    result of a unary star applied to the element, where the const access
    returns the element itself; the second components agree.  On a shared
    block the non-const access does detach first (the handle ends on a new
    block whose counter is 1), and again returns the starred element. *)
Theorem index_mut_dereferences_element {T} (x y z : T) :
  index_mut a 2 (abc x y z)
    = Returns (Deref (ElemOf p1 2), NameOf p1 2) (abc x y z) ∧
  index_const a 2 (abc x y z)
    = Returns (ElemOf p1 2, NameOf p1 2) (abc x y z) ∧
  Deref (ElemOf p1 2) ≠ ElemOf p1 2 ∧
  read_value (abc x y z) (ElemOf p1 2) = Some z ∧
  (∃ s', index_mut b 0 (shared_pair x)
           = Returns (Deref (ElemOf p2 0), NameOf p2 0) s' ∧
         objects s' !! b = Some (Obj p2 p2 p2) ∧
         ref_count s' b = Some 1 ∧
         index_const b 0 s' = Returns (ElemOf p2 0, NameOf p2 0) s').
Proof.
  do 2 (split; [vm_compute; reflexivity |]).
  split; [discriminate |].
  split; [vm_compute; reflexivity |].
  eexists. split; [vm_compute; reflexivity |].
  split_and!; vm_compute; reflexivity.
Qed.

(* What does hold of reserve(n) when n is within max_size() of both
   vectors: it returns, the capacity of the block's two vectors is at
   least n afterwards, and neither the size nor any value or name changes,
   seen through this handle or any other. *)
Lemma reserve_spec {T} (lim : Std.limits) (s : state T) (this : loc)
    (o : MyVector) (vs : Std.vector T) (ns : Std.vector string) (n : nat) :
  objects s !! this = Some o →
  value_vectors s !! m_values o = Some vs →
  name_vectors s !! m_names o = Some ns →
  (n ≤ Std.max_size_values lim)%nat →
  (n ≤ Std.max_size_names lim)%nat →
  ∃ s' vs' ns',
    reserve lim this n s = Returns tt s' ∧
    value_vectors s' !! m_values o = Some vs' ∧
    name_vectors s' !! m_names o = Some ns' ∧
    Std.elems vs' = Std.elems vs ∧
    Std.elems ns' = Std.elems ns ∧
    (n ≤ Std.capacity vs')%nat ∧
    (n ≤ Std.capacity ns')%nat ∧
    (∀ x, contents s' x = contents s x).
Proof.
  intros Ho Hv Hn Hmv Hmn.
  eexists _, (Std.with_capacity vs n), (Std.with_capacity ns n).
  split; [by apply (reserve_runs lim s this o vs ns) |].
  cbn [objects value_vectors name_vectors counters].
  rewrite !lookup_insert_eq.
  split_and!; try done.
  - unfold Std.with_capacity; simpl.
    destruct (Nat.ltb_spec (Std.capacity vs) n); lia.
  - unfold Std.with_capacity; simpl.
    destruct (Nat.ltb_spec (Std.capacity ns) n); lia.
  - intros x. by apply reserve_contents.
Qed.

(** C5. After [MyVector<T> a; a.push_back(x, "a"); MyVector<T> b(a);] the
    call [b.reserve(10)] (10 within max_size() of both vectors) returns
    without detaching: [b] still points to the block of [a], the counter
    of that block is still 2, and the two vectors that [a] reads have had
    their capacity changed from 1 to 10.  The reserve the specification
    words detaches first: [b] then owns a new block with counter 1 and
    capacity 10, and the vectors of [a] keep capacity 1.  On no store does
    reserve change the pointers of a handle or the value of a counter. *)
Theorem reserve_does_not_detach {T} (x : T) :
  copy_program x initial_state = Returns tt (shared_pair x) ∧
  ref_count (shared_pair x) b = Some 2 ∧
  value_vectors (shared_pair x) !! p1 = Some (Std.Vec [x] 1) ∧
  (∀ lim, (10 ≤ Std.max_size_values lim)%nat →
          (10 ≤ Std.max_size_names lim)%nat →
     (∃ s', reserve lim b 10 (shared_pair x) = Returns tt s' ∧
            objects s' !! a = Some (Obj p1 p1 p1) ∧
            objects s' !! b = Some (Obj p1 p1 p1) ∧
            ref_count s' b = Some 2 ∧
            value_vectors s' !! p1 = Some (Std.Vec [x] 10) ∧
            name_vectors s' !! p1 = Some (Std.Vec ["a"] 10)) ∧
     (∃ s', reserve_as_specified lim b 10 (shared_pair x) = Returns tt s' ∧
            objects s' !! a = Some (Obj p1 p1 p1) ∧
            objects s' !! b = Some (Obj p2 p2 p2) ∧
            ref_count s' a = Some 1 ∧
            ref_count s' b = Some 1 ∧
            value_vectors s' !! p1 = Some (Std.Vec [x] 1) ∧
            name_vectors s' !! p1 = Some (Std.Vec ["a"] 1) ∧
            value_vectors s' !! p2 = Some (Std.Vec [x] 10) ∧
            name_vectors s' !! p2 = Some (Std.Vec ["a"] 10))) ∧
  ∀ lim (s : state T) this n s',
    reserve lim this n s = Returns tt s' →
    objects s' = objects s ∧ counters s' = counters s.
Proof.
  do 3 (split; [vm_compute; reflexivity |]).
  split.
  - intros lim Hmv Hmn. split.
    + eexists. split.
      { by apply (reserve_runs lim (shared_pair x) b (Obj p1 p1 p1)
                    (Std.Vec [x] 1) (Std.Vec ["a"] 1) 10). }
      split_and!; vm_compute; reflexivity.
    + eexists. split.
      { unfold reserve_as_specified, reserve_values, reserve_names,
          Std.reserve.
        destruct (Nat.ltb_spec (Std.max_size_values lim) 10); [lia |].
        destruct (Nat.ltb_spec (Std.max_size_names lim) 10); [lia |].
        vm_compute. reflexivity. }
      split_and!; vm_compute; reflexivity.
  - intros lim s this n s' H.
    pose proof (reserve_keeps_handles lim s this n) as Hk.
    by rewrite H in Hk.
Qed.

(* The same call evaluated on the library [small]: the store it leaves is
   the shared pair with capacity 10 in the one block both handles read. *)
Lemma reserve_on_shared_block :
  reserve small b 10 (shared_pair 7)
  = Returns tt
      (State {[ a := Obj p1 p1 p1; b := Obj p1 p1 p1 ]}
             {[ p1 := Std.Vec [7] 10 ]}
             {[ p1 := Std.Vec ["a"] 10 ]}
             {[ p1 := 2 ]}).
Proof. vm_compute. reflexivity. Qed.

(** C6 (as amended). Positional access, const and non-const, throws
    exactly when the index is not below the size.  The exception is
    [out_of_range "Index is out of range"], a fixed text that holds neither
    the index nor the size, and the store it leaves behind is the store
    before the call: the non-const variant has not detached. *)
Theorem index_out_of_range {T} (s : state T) (this : loc) (o : MyVector)
    (vs : Std.vector T) (index : nat) :
  objects s !! this = Some o →
  value_vectors s !! m_values o = Some vs →
  ((length (Std.elems vs) ≤ index)%nat ↔
     ∃ e s', index_const this index s = Throws e s') ∧
  ((length (Std.elems vs) ≤ index)%nat ↔
     ∃ e s', index_mut this index s = Throws e s') ∧
  (∀ e s',
     index_const this index s = Throws e s' ∨
     index_mut this index s = Throws e s' →
     e = out_of_range "Index is out of range" ∧ s' = s).
Proof.
  intros Ho Hv.
  assert (Hc : index_const this index s =
            if (Std.size vs <=? index)%nat
            then Throws (out_of_range "Index is out of range") s
            else (e <- value_ref (m_values o) index ;;
                  pn <- get_names this ;;
                  n <- name_ref pn index ;;
                  ret (e, n)) s).
  { unfold index_const. unfold get_values at 1. unfold load_values at 1.
    unfold bind at 1 2 3, read_object at 1, ret at 1. rewrite Ho.
    cbn [m_values]. rewrite Hv. by destruct (_ <=? _)%nat. }
  assert (Hm : index_mut this index s =
            if (Std.size vs <=? index)%nat
            then Throws (out_of_range "Index is out of range") s
            else (detach this ;;
                  pv' <- get_values this ;;
                  e <- value_ref pv' index ;;
                  pn' <- get_names this ;;
                  n <- name_ref pn' index ;;
                  ret (Deref e, n)) s).
  { unfold index_mut. unfold get_values at 1. unfold load_values at 1.
    unfold bind at 1 2 3, read_object at 1, ret at 1. rewrite Ho.
    cbn [m_values]. rewrite Hv. by destruct (_ <=? _)%nat. }
  assert (Nc : never_throws (T:=T)
            (e <- value_ref (m_values o) index ;;
             pn <- get_names this ;;
             n <- name_ref pn index ;;
             ret (e, n))).
  { unfold get_names. pose proof (@value_ref_nothrow T).
    pose proof (@name_ref_nothrow T). nothrow. }
  assert (Nm : never_throws (T:=T)
            (detach this ;;
             pv' <- get_values this ;;
             e <- value_ref pv' index ;;
             pn' <- get_names this ;;
             n <- name_ref pn' index ;;
             ret (Deref e, n))).
  { unfold get_names, get_values. pose proof (@value_ref_nothrow T).
    pose proof (@name_ref_nothrow T). pose proof (@detach_never_throws T).
    nothrow. }
  rewrite Hc, Hm. unfold Std.size.
  destruct (Nat.leb_spec (length (Std.elems vs)) index) as [Hle|Hlt].
  - repeat split; eauto; intros; destruct H; congruence.
  - repeat split.
    + lia.
    + intros (e & s' & H). by apply Nc in H.
    + lia.
    + intros (e & s' & H). by apply Nm in H.
    + destruct H as [H|H]; [by apply Nc in H | by apply Nm in H].
    + destruct H as [H|H]; [by apply Nc in H | by apply Nm in H].
Qed.

Lemma index_out_of_range_witness :
  ((3 ≤ 3)%nat ↔ ∃ e s', index_const a 3 (abc 1 2 3) = Throws e s') ∧
  ((3 ≤ 3)%nat ↔ ∃ e s', index_mut a 3 (abc 1 2 3) = Throws e s') ∧
  (∀ e s',
     index_const a 3 (abc 1 2 3) = Throws e s' ∨
     index_mut a 3 (abc 1 2 3) = Throws e s' →
     e = out_of_range "Index is out of range" ∧ s' = abc 1 2 3).
Proof.
  apply (index_out_of_range (abc 1 2 3) a (Obj p1 p1 p1)
           (Std.Vec [1; 2; 3] 4) 3); vm_compute; reflexivity.
Defined.

(** C6, as stated, fails: the exception of an out-of-range positional
    access is the same for index 3 and index 7 on a container of size 3,
    and the same again for index 0 on an empty container, so no function
    of the exception yields the offending index and the size. *)
Lemma out_of_range_lacks_index_and_size :
  index_const a 3 (abc 1 2 3)
    = Throws (out_of_range "Index is out of range") (abc 1 2 3) ∧
  index_mut a 7 (abc 1 2 3)
    = Throws (out_of_range "Index is out of range") (abc 1 2 3) ∧
  (∃ s0, ctor a (initial_state (T:=Z)) = Returns tt s0 ∧
         index_const a 0 s0 = Throws (out_of_range "Index is out of range") s0) ∧
  ¬ ∃ index_of size_of : exception → nat,
      ∀ (s : state Z) this i e s',
        index_const this i s = Throws e s' →
        index_of e = i ∧ size this s = Returns (size_of e) s.
Proof.
  split; [vm_compute; reflexivity |].
  split; [vm_compute; reflexivity |].
  split; [eexists; split; vm_compute; reflexivity |].
  intros (index_of & size_of & H).
  assert (H3 : index_const a 3 (abc 1 2 3)
                 = Throws (out_of_range "Index is out of range") (abc 1 2 3))
    by (vm_compute; reflexivity).
  assert (H7 : index_const a 7 (abc 1 2 3)
                 = Throws (out_of_range "Index is out of range") (abc 1 2 3))
    by (vm_compute; reflexivity).
  apply H in H3 as [H3 _]. apply H in H7 as [H7 _]. congruence.
Qed.

(** C7. Lookup by name, in both variants, throws exactly when no stored
    name equals the queried one.  The exception is
    [invalid_argument (name +:+ " is not found in the MyVector")], from
    which the queried name can be recovered; it is thrown when std::find
    has reached the end iterator, that is after every stored name has been
    compared unequal; and the store the exception leaves behind is the
    store before the call, reference counts included. *)
Theorem name_lookup_not_found {T} (s : state T) (this : loc) (o : MyVector)
    (ns : Std.vector string) (name : string) :
  objects s !! this = Some o →
  name_vectors s !! m_names o = Some ns →
  (name ∉ Std.elems ns ↔ ∃ e s', name_const this name s = Throws e s') ∧
  (name ∉ Std.elems ns ↔ ∃ e s', name_mut this name s = Throws e s') ∧
  (∀ e s',
     name_const this name s = Throws e s' ∨ name_mut this name s = Throws e s' →
     e = invalid_argument (name +:+ " is not found in the MyVector") ∧
     s' = s ∧
     Std.find (Std.elems ns) name = length (Std.elems ns) ∧
     Forall (λ n, n ≠ name) (Std.elems ns)) ∧
  (∀ other : string,
     invalid_argument (other +:+ " is not found in the MyVector") =
     invalid_argument (name +:+ " is not found in the MyVector") →
     other = name).
Proof.
  intros Ho Hn.
  assert (Hthrow : ∀ e s', name_const this name s = Throws e s' →
                           name ∉ Std.elems ns).
  { intros e s' H Hin.
    rewrite (name_const_present s this o ns name Ho Hn Hin) in H.
    by apply value_ref_nothrow in H. }
  repeat split.
  - intros Habs. eexists _, _. by apply (name_const_absent s this o ns).
  - intros (e & s' & H). by eapply Hthrow.
  - intros Habs. eexists _, _. rewrite name_mut_const.
    by apply (name_const_absent s this o ns).
  - intros (e & s' & H). rewrite name_mut_const in H. by eapply Hthrow.
  - destruct H as [H|H]; [| rewrite name_mut_const in H];
      pose proof (Hthrow _ _ H) as Habs;
      rewrite (name_const_absent s this o ns name Ho Hn Habs) in H;
      congruence.
  - destruct H as [H|H]; [| rewrite name_mut_const in H];
      pose proof (Hthrow _ _ H) as Habs;
      rewrite (name_const_absent s this o ns name Ho Hn Habs) in H;
      congruence.
  - apply find_end.
    destruct H as [H|H]; [| rewrite name_mut_const in H]; by eapply Hthrow.
  - apply Forall_forall. intros n Hin ->.
    destruct H as [H|H]; [| rewrite name_mut_const in H];
      by eapply Hthrow.
  - intros other H. injection H as H. by apply append_inv_tail in H.
Qed.

Lemma name_lookup_not_found_witness :
  name_const a "z" (abc 1 2 3)
    = Throws (invalid_argument "z is not found in the MyVector") (abc 1 2 3) ∧
  name_mut a "z" (abc 1 2 3)
    = Throws (invalid_argument "z is not found in the MyVector") (abc 1 2 3).
Proof.
  destruct (name_lookup_not_found (abc 1 2 3) a (Obj p1 p1 p1)
              (Std.Vec ["a"; "b"; "a"] 4) "z" eq_refl eq_refl)
    as (Hc & Hm & Hwhat & _).
  assert (Habs : "z" ∉ ["a"; "b"; "a"]).
  { intros H. repeat (apply elem_of_cons in H as [H|H]; [discriminate |]).
    by apply elem_of_nil in H. }
  destruct (proj1 Hc Habs) as (e1 & s1 & H1).
  destruct (proj1 Hm Habs) as (e2 & s2 & H2).
  destruct (Hwhat e1 s1 (or_introl H1)) as (-> & -> & _).
  destruct (Hwhat e2 s2 (or_intror H2)) as (-> & -> & _).
  split; assumption.
Defined.

(** C8. When a name occurs among the stored names, lookup by that name
    (const and non-const) returns a reference to the value stored at the
    position of the first occurrence, and reading it yields that value.
    That value exists because the two vectors have the same length, which
    holds in every store the class's calls reach. *)
Theorem name_lookup_first_match {T} (s : state T) (this : loc) (o : MyVector)
    (vs : Std.vector T) (ns : Std.vector string) (name : string) (i : nat) :
  objects s !! this = Some o →
  value_vectors s !! m_values o = Some vs →
  name_vectors s !! m_names o = Some ns →
  Std.elems ns !! i = Some name →
  (∀ j, (j < i)%nat → Std.elems ns !! j ≠ Some name) →
  (length (Std.elems vs) = length (Std.elems ns) ∨
   ∃ grow lim, reachable grow lim s) →
  ∃ v,
    Std.elems vs !! i = Some v ∧
    name_const this name s = Returns (ElemOf (m_values o) i) s ∧
    name_mut this name s = Returns (ElemOf (m_values o) i) s ∧
    read_value s (ElemOf (m_values o) i) = Some v.
Proof.
  intros Ho Hv Hn Hi Hfirst Hlen.
  assert (Hlen' : length (Std.elems vs) = length (Std.elems ns)).
  { destruct Hlen as [Hlen|(grow & lim & Hr)]; [done |].
    apply (reachable_paired grow lim s Hr this).
    unfold contents. rewrite Ho. simpl. by rewrite Hv, Hn. }
  destruct (lookup_lt_is_Some_2 (Std.elems vs) i) as [v Hvi].
  { rewrite Hlen'. by apply lookup_lt_Some in Hi. }
  exists v. split; [done |].
  assert (Hfind : Std.find (Std.elems ns) name = i) by by apply find_first.
  assert (Hin : name ∈ Std.elems ns) by (apply list_elem_of_lookup; eauto).
  assert (Hc : name_const this name s = Returns (ElemOf (m_values o) i) s).
  { rewrite (name_const_present s this o ns name Ho Hn Hin), Hfind.
    apply (value_ref_in_range s _ vs); [exact Hv |].
    by apply lookup_lt_Some in Hvi. }
  split; [exact Hc |]. split; [by rewrite name_mut_const |].
  simpl. rewrite Hv. exact Hvi.
Qed.

Lemma name_lookup_first_match_witness :
  ∃ v,
    [1; 2; 3] !! 0%nat = Some v ∧
    name_const a "a" (abc 1 2 3) = Returns (ElemOf p1 0) (abc 1 2 3) ∧
    name_mut a "a" (abc 1 2 3) = Returns (ElemOf p1 0) (abc 1 2 3) ∧
    read_value (abc 1 2 3) (ElemOf p1 0) = Some v.
Proof.
  apply (name_lookup_first_match (abc 1 2 3) a (Obj p1 p1 p1)
           (Std.Vec [1; 2; 3] 4) (Std.Vec ["a"; "b"; "a"] 4) "a" 0);
    try (vm_compute; reflexivity).
  - intros j Hj. lia.
  - left. reflexivity.
Defined.

(* The example of the specification: on [("a",1), ("b",2), ("a",3)] the
   lookup of "a" yields 1, and position 2 holds ("a",3). *)
Lemma name_lookup_example :
  (∃ r, name_const a "a" (abc 1 2 3) = Returns r (abc 1 2 3) ∧
        read_value (abc 1 2 3) r = Some 1) ∧
  (∃ r n, index_const a 2 (abc 1 2 3) = Returns (r, n) (abc 1 2 3) ∧
          read_value (abc 1 2 3) r = Some 3 ∧
          read_name (abc 1 2 3) n = Some "a").
Proof.
  split.
  - eexists. split; vm_compute; reflexivity.
  - eexists _, _. split; [vm_compute; reflexivity |].
    split; vm_compute; reflexivity.
Qed.

(** C9. Detaching a handle whose counter is 1 does nothing.  Detaching
    a handle whose counter is larger allocates a new block (new vector of
    values, new vector of names, new counter) holding the same values and
    names in the same order, leaves the handle pointing at it with the new
    counter at 1, and leaves the old block in place with its counter
    lowered by exactly one.  In a consistent store with fewer handles than
    a size_t can count, a counter that is not 1 is larger than 1, so these
    are the only two cases. *)
Theorem detach_spec {T} (s : state T) (this : loc) (o : MyVector) (c : Z)
    (vs : Std.vector T) (ns : Std.vector string) :
  objects s !! this = Some o →
  counters s !! m_ref_count o = Some c →
  value_vectors s !! m_values o = Some vs →
  name_vectors s !! m_names o = Some ns →
  (c = 1 → detach this s = Returns tt s) ∧
  (1 < c < size_t_modulus →
   ∃ s' o',
     detach this s = Returns tt s' ∧
     objects s' !! this = Some o' ∧
     m_ref_count o' ≠ m_ref_count o ∧
     m_values o' ≠ m_values o ∧
     m_names o' ≠ m_names o ∧
     counters s' !! m_ref_count o' = Some 1 ∧
     counters s' !! m_ref_count o = Some (c - 1) ∧
     Std.elems <$> value_vectors s' !! m_values o' = Some (Std.elems vs) ∧
     Std.elems <$> name_vectors s' !! m_names o' = Some (Std.elems ns) ∧
     value_vectors s' !! m_values o = Some vs ∧
     name_vectors s' !! m_names o = Some ns ∧
     ∀ x, x ≠ this → objects s' !! x = objects s !! x) ∧
  (consistent s → bounded s → c ≠ 1 → 1 < c < size_t_modulus).
Proof.
  intros Ho Hc Hv Hn. split_and!.
  - intros ->. apply (detach_exclusive s this o 1); [done | done | lia].
  - intros [Hlo Hhi].
    exists (detached s this o c vs ns), (Obj (fresh (dom (value_vectors s)))
      (fresh (dom (name_vectors s))) (fresh (dom (counters s)))).
    pose proof (fresh_ne_present _ _ _ Hc) as Nc.
    pose proof (fresh_ne_present _ _ _ Hv) as Nv.
    pose proof (fresh_ne_present _ _ _ Hn) as Nn.
    split; [by apply detach_shared |].
    unfold detached; cbn [objects value_vectors name_vectors counters
                          m_values m_names m_ref_count].
    split_and!; try done.
    + by rewrite lookup_insert_eq.
    + by rewrite lookup_insert_eq.
    + rewrite lookup_insert_ne by done. rewrite lookup_insert_eq.
      f_equal. apply wrap_small. lia.
    + by rewrite lookup_insert_eq.
    + by rewrite lookup_insert_eq.
    + by rewrite lookup_insert_ne.
    + by rewrite lookup_insert_ne.
    + intros x Hx. by rewrite lookup_insert_ne.
  - intros Hs Hb Hne.
    destruct (counter_bound s _ c Hs Hb Hc). lia.
Qed.

Lemma detach_spec_witness :
  ∃ s' o',
    detach b (shared_pair 7) = Returns tt s' ∧
    objects s' !! b = Some o' ∧
    m_ref_count o' ≠ p1 ∧
    m_values o' ≠ p1 ∧
    m_names o' ≠ p1 ∧
    counters s' !! m_ref_count o' = Some 1 ∧
    counters s' !! p1 = Some (2 - 1) ∧
    Std.elems <$> value_vectors s' !! m_values o' = Some [7] ∧
    Std.elems <$> name_vectors s' !! m_names o' = Some ["a"] ∧
    value_vectors s' !! p1 = Some (Std.Vec [7] 1) ∧
    name_vectors s' !! p1 = Some (Std.Vec ["a"] 1) ∧
    ∀ x, x ≠ b → objects s' !! x = objects (shared_pair 7) !! x.
Proof.
  apply (detach_spec (shared_pair 7) b (Obj p1 p1 p1) 2
           (Std.Vec [7] 1) (Std.Vec ["a"] 1)); try (vm_compute; reflexivity).
  unfold size_t_modulus. lia.
Defined.

(** C10. The non-const lookup by name is the const lookup: on every store
    and every name the two have the same outcome, so they throw on the
    same inputs and otherwise return a reference to the same element,
    which is the one at the offset std::find computes on the names, and
    neither changes the store. *)
Theorem name_lookup_variants_agree {T} (s : state T) (this : loc)
    (name : string) :
  name_mut this name s = name_const this name s ∧
  ∀ r s', name_const this name s = Returns r s' →
    s' = s ∧
    ∃ o ns, objects s !! this = Some o ∧
            name_vectors s !! m_names o = Some ns ∧
            r = ElemOf (m_values o) (Std.find (Std.elems ns) name).
Proof.
  split; [apply name_mut_const |].
  intros r s'. unfold name_const. mrun.
  destruct (objects s !! this) as [o|] eqn:Ho; [| done]. repeat mstep.
  destruct (name_vectors s !! m_names o) as [ns|] eqn:Hn; [| done].
  repeat mstep.
  destruct (decide _) as [|Hne]; [done |]. repeat mstep.
  destruct (value_vectors s !! m_values o) as [vs|]; [| done].
  destruct (_ <? _)%nat; [| done].
  intros [= <- <-]. split; [done |]. by exists o, ns.
Qed.

Lemma name_lookup_variants_agree_witness :
  name_mut a "b" (abc 1 2 3) = name_const a "b" (abc 1 2 3) ∧
  name_mut a "z" (abc 1 2 3) = name_const a "z" (abc 1 2 3).
Proof.
  split.
  - apply (name_lookup_variants_agree (abc 1 2 3) a "b").
  - apply (name_lookup_variants_agree (abc 1 2 3) a "z").
Defined.

(* ===================================================================== *)
(* Further properties of the member functions                            *)
(* ===================================================================== *)

(* --------------------------------------------------------------------- *)
(* What the const member functions return, from what the handle reads    *)
(* --------------------------------------------------------------------- *)

Section Observations.

Context {T : Type}.
Implicit Types (s : state T) (this x : loc) (o : MyVector).

Lemma contents_Some s this values names :
  contents s this = Some (values, names) →
  ∃ o vs ns,
    objects s !! this = Some o ∧
    value_vectors s !! m_values o = Some vs ∧
    name_vectors s !! m_names o = Some ns ∧
    Std.elems vs = values ∧ Std.elems ns = names.
Proof.
  unfold contents. intros H.
  destruct (objects s !! this) as [o|] eqn:Ho; [| done]. simpl in H.
  destruct (value_vectors s !! m_values o) as [vs|] eqn:Hv; [| done].
  simpl in H.
  destruct (name_vectors s !! m_names o) as [ns|] eqn:Hn; [| done].
  simpl in H. injection H as <- <-. by exists o, vs, ns.
Qed.

Lemma size_of_contents s this values names :
  contents s this = Some (values, names) →
  size this s = Returns (length values) s.
Proof.
  intros (o & vs & ns & Ho & Hv & Hn & <- & <-)%contents_Some.
  unfold size. by mrun.
Qed.

Lemma empty_of_contents s this values names :
  contents s this = Some (values, names) →
  empty this s = Returns (Nat.eqb (length values) 0) s.
Proof.
  intros (o & vs & ns & Ho & Hv & Hn & <- & <-)%contents_Some.
  unfold empty. mrun. unfold Std.empty. by destruct (Std.elems vs).
Qed.

Lemma index_const_of_contents s this values names index :
  contents s this = Some (values, names) →
  (index < length values)%nat → (index < length names)%nat →
  ∃ r n,
    index_const this index s = Returns (r, n) s ∧
    read_value s r = values !! index ∧
    read_name s n = names !! index.
Proof.
  intros (o & vs & ns & Ho & Hv & Hn & <- & <-)%contents_Some Hi Hj.
  exists (ElemOf (m_values o) index), (NameOf (m_names o) index).
  split; [| by simpl; rewrite Hv, Hn].
  unfold index_const. mrun. unfold Std.size.
  destruct (Nat.leb_spec (length (Std.elems vs)) index); [lia |].
  repeat mstep.
  destruct (Nat.ltb_spec index (length (Std.elems vs))); [| lia].
  repeat mstep.
  destruct (Nat.ltb_spec index (length (Std.elems ns))); [| lia].
  by repeat mstep.
Qed.

Lemma index_const_past_end s this values names index :
  contents s this = Some (values, names) →
  (length values ≤ index)%nat →
  index_const this index s = Throws (out_of_range "Index is out of range") s.
Proof.
  intros (o & vs & ns & Ho & Hv & Hn & <- & <-)%contents_Some Hi.
  unfold index_const. mrun. unfold Std.size.
  by destruct (Nat.leb_spec (length (Std.elems vs)) index); [| lia].
Qed.

Lemma name_const_of_contents s this values names name i :
  contents s this = Some (values, names) →
  names !! i = Some name →
  (∀ j, (j < i)%nat → names !! j ≠ Some name) →
  (i < length values)%nat →
  ∃ r, name_const this name s = Returns r s ∧
       read_value s r = values !! i.
Proof.
  intros (o & vs & ns & Ho & Hv & Hn & <- & <-)%contents_Some Hi Hfirst Hlt.
  exists (ElemOf (m_values o) i). split; [| by simpl; rewrite Hv].
  assert (Hin : name ∈ Std.elems ns) by (apply list_elem_of_lookup; eauto).
  rewrite (name_const_present s this o ns name Ho Hn Hin).
  rewrite (find_first _ _ i Hi Hfirst).
  by apply (value_ref_in_range s _ vs).
Qed.

Lemma name_const_missing s this values names name :
  contents s this = Some (values, names) →
  name ∉ names →
  name_const this name s
  = Throws (invalid_argument (name +:+ " is not found in the MyVector")) s.
Proof.
  intros (o & vs & ns & Ho & Hv & Hn & <- & <-)%contents_Some Habs.
  by apply (name_const_absent s this o ns).
Qed.

End Observations.


Lemma index_mut_past_end {T} (s : state T) this values names index :
  contents s this = Some (values, names) →
  (length values ≤ index)%nat →
  index_mut this index s = Throws (out_of_range "Index is out of range") s.
Proof.
  intros (o & vs & ns & Ho & Hv & Hn & <- & <-)%contents_Some Hi.
  unfold index_mut. mrun. unfold Std.size.
  by destruct (Nat.leb_spec (length (Std.elems vs)) index); [| lia].
Qed.

(* --------------------------------------------------------------------- *)
(* Stores reached by sequences of calls                                  *)
(* --------------------------------------------------------------------- *)

Lemma run_calls_reachable {T} grow lim (cs : list (call T))
    (s s' : state T) :
  reachable grow lim s → run_calls grow lim cs s = Some s' →
  reachable grow lim s'.
Proof.
  revert s. induction cs as [|c cs IH]; intros s Hr; simpl.
  - by intros [= <-].
  - destruct (Z.ltb_spec (Z.of_nat (base.size (objects s)) + 1)
                size_t_modulus) as [Hb|]; [| done].
    destruct (run_call grow lim c s) as [[] s1| e s1 |] eqn:E; [| | done].
    + apply IH. by apply (reach_return grow lim s c s1).
    + apply IH. by apply (reach_throw grow lim s c e s1).
Qed.

Lemma shared_pair_reachable {T} lim (x : T) :
  reachable doubling lim (shared_pair x).
Proof.
  apply (run_calls_reachable doubling lim
           [Construct a; Mutate a (MPushBack x "a"); CopyConstruct b a]
           initial_state); [apply reach_initial |].
  vm_compute. reflexivity.
Qed.

Lemma abc_reachable {T} lim (x y z : T) :
  reachable doubling lim (abc x y z).
Proof.
  apply (run_calls_reachable doubling lim
           [Construct a; Mutate a (MPushBack x "a");
            Mutate a (MPushBack y "b"); Mutate a (MPushBack z "a")]
           initial_state); [apply reach_initial |].
  vm_compute. reflexivity.
Qed.

Lemma shared_pair_consistent {T} (x : T) : consistent (shared_pair x).
Proof. apply (reachable_consistent doubling small), shared_pair_reachable. Qed.

Lemma abc_consistent {T} (x y z : T) : consistent (abc x y z).
Proof. apply (reachable_consistent doubling small), abc_reachable. Qed.

Lemma shared_pair_bounded {T} (x : T) : bounded (shared_pair x).
Proof. unfold bounded. vm_compute. reflexivity. Qed.

Lemma abc_bounded {T} (x y z : T) : bounded (abc x y z).
Proof. unfold bounded. vm_compute. reflexivity. Qed.

(* --------------------------------------------------------------------- *)
(* Construction                                                          *)
(* --------------------------------------------------------------------- *)



(* --------------------------------------------------------------------- *)
(* push_back and clear, seen through the const member functions          *)
(* --------------------------------------------------------------------- *)

Lemma push_back_runs {T} grow (s : state T) this values names
    (value : T) (name : string) :
  consistent s → bounded s → contents s this = Some (values, names) →
  ∃ s',
    push_back grow this value name s = Returns tt s' ∧
    consistent s' ∧
    contents s' this = Some (values ++ [value], names ++ [name]) ∧
    ref_count s' this = Some 1 ∧
    ∀ x, x ≠ this → contents s' x = contents s x.
Proof.
  intros Hs Hb Hc.
  destruct (contents_Some s this values names Hc)
    as (o & vs & ns & Ho & _ & _ & _ & _).
  destruct (detach_then_update s this o
              (λ v, Std.push_back grow v value)
              (λ v, Std.push_back grow v name) Hs Hb Ho)
    as (s1 & o1 & vs0 & ns0 & vs1 & ns1 & Hd & Hs1 & Ho1 & Hv1 & Hn1 & Hc1
        & Hsz & Hcont & Hev & Hen & _ & Hs' & Hthis' & Hothers).
  rewrite Hc in Hcont. injection Hcont as -> ->.
  eexists. split.
  { unfold push_back. unfold_prims. rewrite Hd. repeat mstep. reflexivity. }
  split; [done |]. split.
  { rewrite Hthis'. simpl. by rewrite Hev, Hen. }
  split; [| done].
  unfold ref_count. cbn [objects counters]. rewrite Ho1. simpl. done.
Qed.

Lemma clear_runs {T} (s : state T) this values names :
  consistent s → bounded s → contents s this = Some (values, names) →
  ∃ s',
    clear this s = Returns tt s' ∧
    consistent s' ∧
    contents s' this = Some ([], []) ∧
    ref_count s' this = Some 1 ∧
    ∀ x, x ≠ this → contents s' x = contents s x.
Proof.
  intros Hs Hb Hc.
  destruct (contents_Some s this values names Hc)
    as (o & vs & ns & Ho & _ & _ & _ & _).
  destruct (detach_then_update s this o Std.clear Std.clear Hs Hb Ho)
    as (s1 & o1 & vs0 & ns0 & vs1 & ns1 & Hd & Hs1 & Ho1 & Hv1 & Hn1 & Hc1
        & Hsz & Hcont & Hev & Hen & _ & Hs' & Hthis' & Hothers).
  eexists. split.
  { unfold clear. unfold_prims. rewrite Hd. repeat mstep. reflexivity. }
  split; [done |]. split; [done |]. split; [| done].
  unfold ref_count. cbn [objects counters]. rewrite Ho1. simpl. done.
Qed.

(** X2. In a consistent store (every live handle points to an allocated
    counter and two allocated vectors, every counter holds the number of
    live handles pointing to it, two handles share a vector exactly when
    they share the counter, and nothing is allocated that no handle points
    to; every store reached without the implicit operator= is one) with
    fewer live handles than a size_t can count,
    push_back(value, name) on a live handle whose two vectors have the
    same length returns; afterwards the store is consistent, the handle
    owns its block alone (counter 1), size() is one more than before,
    empty() is false, the const positional access at the old size reads
    (value, name), every earlier position reads the entry it read before,
    and every other handle reads what it read before. *)
Theorem push_back_read_back {T} grow (s : state T) (this : loc)
    (values : list T) (names : list string) (value : T) (name : string) :
  consistent s → bounded s →
  contents s this = Some (values, names) →
  length values = length names →
  ∃ s',
    push_back grow this value name s = Returns tt s' ∧
    consistent s' ∧
    ref_count s' this = Some 1 ∧
    size this s' = Returns (S (length values)) s' ∧
    empty this s' = Returns false s' ∧
    (∃ r n,
       index_const this (length values) s' = Returns (r, n) s' ∧
       read_value s' r = Some value ∧ read_name s' n = Some name) ∧
    (∀ index, (index < length values)%nat →
       ∃ r n,
         index_const this index s' = Returns (r, n) s' ∧
         read_value s' r = values !! index ∧
         read_name s' n = names !! index) ∧
    (∀ x, x ≠ this → contents s' x = contents s x).
Proof.
  intros Hs Hb Hc Hlen.
  destruct (push_back_runs grow s this values names value name Hs Hb Hc)
    as (s' & Hrun & Hs' & Hc' & Hrc & Hothers).
  exists s'. split; [done |]. split; [done |]. split; [done |].
  split.
  { rewrite (size_of_contents s' this _ _ Hc'), length_app. simpl.
    do 2 f_equal. lia. }
  split.
  { rewrite (empty_of_contents s' this _ _ Hc'), length_app. simpl.
    do 2 f_equal. apply Nat.eqb_neq. lia. }
  split.
  { destruct (index_const_of_contents s' this _ _ (length values) Hc')
      as (r & n & Hi & Hr & Hn); [rewrite length_app; simpl; lia .. |].
    exists r, n. split; [done |]. rewrite Hr, Hn. split.
    - rewrite lookup_app_r by lia. by rewrite Nat.sub_diag.
    - rewrite Hlen. rewrite lookup_app_r by lia. by rewrite Nat.sub_diag. }
  split; [| done].
  intros index Hi.
  destruct (index_const_of_contents s' this _ _ index Hc')
    as (r & n & Hic & Hr & Hn); [rewrite length_app; simpl; lia .. |].
  exists r, n. split; [done |]. rewrite Hr, Hn.
  rewrite !lookup_app_l by lia. done.
Qed.

Lemma push_back_read_back_witness :
  ∃ s',
    push_back doubling b 8 "n" (shared_pair 7) = Returns tt s' ∧
    consistent s' ∧
    ref_count s' b = Some 1 ∧
    size b s' = Returns 2%nat s' ∧
    empty b s' = Returns false s' ∧
    (∃ r n,
       index_const b 1 s' = Returns (r, n) s' ∧
       read_value s' r = Some 8 ∧ read_name s' n = Some "n") ∧
    (∀ index, (index < 1)%nat →
       ∃ r n,
         index_const b index s' = Returns (r, n) s' ∧
         read_value s' r = [7] !! index ∧
         read_name s' n = ["a"] !! index) ∧
    (∀ x, x ≠ b → contents s' x = contents (shared_pair 7) x).
Proof.
  apply (push_back_read_back doubling (shared_pair 7) b [7] ["a"] 8 "n").
  - apply shared_pair_consistent.
  - apply shared_pair_bounded.
  - vm_compute. reflexivity.
  - reflexivity.
Defined.

(** X3. push_back never changes what a lookup by name finds for a name
    that was already present: the lookup still returns the value of the
    first entry with that name.  A name that was absent is found
    afterwards exactly when it is the name just pushed, and then with the
    value just pushed. *)
Theorem push_back_keeps_first_match {T} grow (s : state T) (this : loc)
    (values : list T) (names : list string) (value : T) (name : string) :
  consistent s → bounded s →
  contents s this = Some (values, names) →
  length values = length names →
  ∃ s',
    push_back grow this value name s = Returns tt s' ∧
    (∀ name' i,
       names !! i = Some name' →
       (∀ j, (j < i)%nat → names !! j ≠ Some name') →
       ∃ r v, name_const this name' s' = Returns r s' ∧
              values !! i = Some v ∧ read_value s' r = Some v) ∧
    (name ∉ names →
       ∃ r, name_const this name s' = Returns r s' ∧
            read_value s' r = Some value) ∧
    (∀ name', name' ≠ name → name' ∉ names →
       name_const this name' s'
       = Throws (invalid_argument (name' +:+ " is not found in the MyVector"))
           s').
Proof.
  intros Hs Hb Hc Hlen.
  destruct (push_back_runs grow s this values names value name Hs Hb Hc)
    as (s' & Hrun & Hs' & Hc' & Hrc & Hothers).
  exists s'. split; [done |]. split; [| split].
  - intros name' i Hi Hfirst.
    pose proof (lookup_lt_Some _ _ _ Hi) as Hlt.
    destruct (lookup_lt_is_Some_2 values i) as [v Hv]; [lia |].
    destruct (name_const_of_contents s' this _ _ name' i Hc')
      as (r & Hr & Hread).
    + by rewrite lookup_app_l.
    + intros j Hj. rewrite lookup_app_l by lia. by apply Hfirst.
    + rewrite length_app. lia.
    + exists r, v. split; [done |]. split; [done |].
      by rewrite Hread, lookup_app_l by lia.
  - intros Habs.
    destruct (name_const_of_contents s' this _ _ name (length names) Hc')
      as (r & Hr & Hread).
    + rewrite lookup_app_r by lia. by rewrite Nat.sub_diag.
    + intros j Hj. rewrite lookup_app_l by lia.
      intros Hj'. apply Habs. apply list_elem_of_lookup. eauto.
    + rewrite length_app. simpl. lia.
    + exists r. split; [done |]. rewrite Hread, <- Hlen.
      rewrite lookup_app_r by lia. by rewrite Nat.sub_diag.
  - intros name' Hne Habs.
    apply (name_const_missing s' this _ _ name' Hc').
    rewrite elem_of_app, list_elem_of_singleton. intros [H|H]; done.
Qed.

Lemma push_back_keeps_first_match_witness :
  ∃ s',
    push_back doubling a 4 "b" (abc 1 2 3) = Returns tt s' ∧
    (∀ name' i,
       ["a"; "b"; "a"] !! i = Some name' →
       (∀ j, (j < i)%nat → ["a"; "b"; "a"] !! j ≠ Some name') →
       ∃ r v, name_const a name' s' = Returns r s' ∧
              [1; 2; 3] !! i = Some v ∧ read_value s' r = Some v) ∧
    ("b" ∉ ["a"; "b"; "a"] →
       ∃ r, name_const a "b" s' = Returns r s' ∧
            read_value s' r = Some 4) ∧
    (∀ name', name' ≠ "b" → name' ∉ ["a"; "b"; "a"] →
       name_const a name' s'
       = Throws (invalid_argument (name' +:+ " is not found in the MyVector"))
           s').
Proof.
  apply (push_back_keeps_first_match doubling (abc 1 2 3) a
           [1; 2; 3] ["a"; "b"; "a"] 4 "b").
  - apply abc_consistent.
  - apply abc_bounded.
  - vm_compute. reflexivity.
  - reflexivity.
Defined.

(** X4. In a consistent store (every live handle points to an allocated
    counter and two allocated vectors, every counter holds the number of
    live handles pointing to it, two handles share a vector exactly when
    they share the counter, and nothing is allocated that no handle points
    to; every store reached without the implicit operator= is one) with
    fewer live handles than a size_t can count,
    clear() on a live handle returns; afterwards the store is consistent,
    the handle owns its block alone (counter 1) and reads no entry: size()
    is 0, empty() is true, every positional access throws out_of_range and
    every lookup by name throws invalid_argument, while every other
    handle, also one that shared the block, reads what it read before. *)
Theorem clear_empties {T} (s : state T) (this : loc)
    (values : list T) (names : list string) :
  consistent s → bounded s →
  contents s this = Some (values, names) →
  ∃ s',
    clear this s = Returns tt s' ∧
    consistent s' ∧
    ref_count s' this = Some 1 ∧
    contents s' this = Some ([], []) ∧
    size this s' = Returns 0%nat s' ∧
    empty this s' = Returns true s' ∧
    (∀ index,
       index_const this index s'
       = Throws (out_of_range "Index is out of range") s' ∧
       index_mut this index s'
       = Throws (out_of_range "Index is out of range") s') ∧
    (∀ name,
       name_const this name s'
       = Throws (invalid_argument (name +:+ " is not found in the MyVector"))
           s' ∧
       name_mut this name s'
       = Throws (invalid_argument (name +:+ " is not found in the MyVector"))
           s') ∧
    (∀ x, x ≠ this → contents s' x = contents s x).
Proof.
  intros Hs Hb Hc.
  destruct (clear_runs s this values names Hs Hb Hc)
    as (s' & Hrun & Hs' & Hc' & Hrc & Hothers).
  exists s'. split_and!; try done.
  - by apply (size_of_contents _ _ [] []).
  - by apply (empty_of_contents _ _ [] []).
  - intros index. split.
    + apply (index_const_past_end _ _ [] []); [done | simpl; lia].
    + apply (index_mut_past_end _ _ [] []); [done | simpl; lia].
  - intros name.
    assert (Hmiss : name_const this name s'
              = Throws (invalid_argument
                          (name +:+ " is not found in the MyVector")) s').
    { apply (name_const_missing _ _ [] []); [done |]. apply not_elem_of_nil. }
    split; [exact Hmiss |]. by rewrite name_mut_const.
Qed.

Lemma clear_empties_witness :
  ∃ s',
    clear b (shared_pair 7) = Returns tt s' ∧
    consistent s' ∧
    ref_count s' b = Some 1 ∧
    contents s' b = Some ([], []) ∧
    size b s' = Returns 0%nat s' ∧
    empty b s' = Returns true s' ∧
    (∀ index,
       index_const b index s'
       = Throws (out_of_range "Index is out of range") s' ∧
       index_mut b index s'
       = Throws (out_of_range "Index is out of range") s') ∧
    (∀ name,
       name_const b name s'
       = Throws (invalid_argument (name +:+ " is not found in the MyVector"))
           s' ∧
       name_mut b name s'
       = Throws (invalid_argument (name +:+ " is not found in the MyVector"))
           s') ∧
    (∀ x, x ≠ b → contents s' x = contents (shared_pair 7) x).
Proof.
  apply (clear_empties (shared_pair 7) b [7] ["a"]).
  - apply shared_pair_consistent.
  - apply shared_pair_bounded.
  - vm_compute. reflexivity.
Defined.

(* --------------------------------------------------------------------- *)
(* Iterators, size() and empty()                                         *)
(* --------------------------------------------------------------------- *)

(** X5. On a live handle, shared or not, cbegin(), cend(), size() and
    empty() return without changing the store (nothing is detached);
    cbegin() and cend() are positions 0 and size() of the handle's current
    vector of values, and empty() is true exactly when size() is 0, which
    is exactly when cbegin() and cend() are the same iterator. *)
Theorem const_range {T} (s : state T) (this : loc) (o : MyVector)
    (vs : Std.vector T) :
  objects s !! this = Some o →
  value_vectors s !! m_values o = Some vs →
  cbegin this s = Returns (m_values o, 0%nat) s ∧
  cend this s = Returns (m_values o, length (Std.elems vs)) s ∧
  size this s = Returns (length (Std.elems vs)) s ∧
  (∃ e, empty this s = Returns e s ∧
        (e = true ↔ length (Std.elems vs) = 0%nat) ∧
        (e = true ↔ cbegin this s = cend this s)).
Proof.
  intros Ho Hv.
  assert (Hb : cbegin this s = Returns (m_values o, 0%nat) s)
    by (unfold cbegin; by mrun).
  assert (He : cend this s = Returns (m_values o, length (Std.elems vs)) s)
    by (unfold cend; by mrun).
  split; [done |]. split; [done |]. split; [unfold size; by mrun |].
  exists (Std.empty vs). split; [unfold empty; by mrun |].
  rewrite Hb, He. unfold Std.empty.
  destruct (Std.elems vs) as [|v l]; simpl.
  - done.
  - split; (split; [done |]); [done |]. intros [= H].
Qed.

Lemma const_range_witness :
  cbegin b (shared_pair 7) = Returns (p1, 0%nat) (shared_pair 7) ∧
  cend b (shared_pair 7) = Returns (p1, 1%nat) (shared_pair 7) ∧
  size b (shared_pair 7) = Returns 1%nat (shared_pair 7) ∧
  (∃ e, empty b (shared_pair 7) = Returns e (shared_pair 7) ∧
        (e = true ↔ 1%nat = 0%nat) ∧
        (e = true ↔ cbegin b (shared_pair 7) = cend b (shared_pair 7))).
Proof.
  apply (const_range (shared_pair 7) b (Obj p1 p1 p1) (Std.Vec [7] 1));
    vm_compute; reflexivity.
Defined.

(** X6. In a consistent store (every live handle points to an allocated
    counter and two allocated vectors, every counter holds the number of
    live handles pointing to it, two handles share a vector exactly when
    they share the counter, and nothing is allocated that no handle points
    to; every store reached without the implicit operator= is one) with
    fewer live handles than a size_t can count,
    begin() and end() on a live handle return iterators into one and the
    same vector, at positions 0 and size(), and both leave the same
    store: the handle then owns its block alone (counter 1), no other
    handle points to the vector the iterators are in, every handle reads
    what it read before, and calling begin(), end(), cbegin() or cend()
    again returns the same iterators without changing the store. *)
Theorem mutable_range {T} (s : state T) (this : loc)
    (values : list T) (names : list string) :
  consistent s → bounded s →
  contents s this = Some (values, names) →
  ∃ s' pv,
    begin this s = Returns (pv, 0%nat) s' ∧
    end_ this s = Returns (pv, length values) s' ∧
    begin this s' = Returns (pv, 0%nat) s' ∧
    end_ this s' = Returns (pv, length values) s' ∧
    cbegin this s' = Returns (pv, 0%nat) s' ∧
    cend this s' = Returns (pv, length values) s' ∧
    m_values <$> objects s' !! this = Some pv ∧
    ref_count s' this = Some 1 ∧
    (∀ x ox, x ≠ this → objects s' !! x = Some ox → m_values ox ≠ pv) ∧
    (∀ x, contents s' x = contents s x).
Proof.
  intros Hs Hb Hc.
  destruct (contents_Some s this values names Hc)
    as (o & vs & ns & Ho & Hv & Hn & Hev & Hen).
  destruct (detach_post s this o Hs Hb Ho)
    as (s1 & o1 & vs0 & vs1 & ns0 & ns1 & Hd & Hs1 & Hsz & Hv0 & Hn0 & Ho1
        & Hc1 & Hv1 & Hn1 & Hev1 & Hen1 & Hobj & Hblk).
  assert (vs0 = vs) by congruence. assert (ns0 = ns) by congruence.
  subst vs0 ns0.
  assert (Hlen : length (Std.elems vs1) = length values)
    by (by rewrite Hev1, Hev).
  assert (Hd1 : detach this s1 = Returns tt s1)
    by (apply (detach_exclusive s1 this o1 1); [done | done | lia]).
  exists s1, (m_values o1).
  split; [unfold begin; unfold_prims; rewrite Hd; by repeat mstep |].
  split.
  { unfold end_. unfold_prims. rewrite Hd. repeat mstep.
    unfold Std.size. by rewrite Hlen. }
  split; [unfold begin; unfold_prims; rewrite Hd1; by repeat mstep |].
  split.
  { unfold end_. unfold_prims. rewrite Hd1. repeat mstep.
    unfold Std.size. by rewrite Hlen. }
  split; [unfold cbegin; by mrun |].
  split; [unfold cend; mrun; unfold Std.size; by rewrite Hlen |].
  split; [by rewrite Ho1 |].
  split; [unfold ref_count; by rewrite Ho1 |].
  split.
  { intros x ox Hx Hox.
    by destruct (sole_handle s1 this o1 x ox Hs1 Ho1 Hc1 Hox Hx) as (_ & ? & _). }
  intros x. destruct (decide (x = this)) as [->|Hx].
  - unfold contents. rewrite Ho1, Ho. simpl.
    rewrite Hv1, Hn1, Hv, Hn. simpl. by rewrite Hev1, Hen1.
  - apply contents_unchanged; [by apply Hobj | apply Hblk].
Qed.

Lemma mutable_range_witness :
  ∃ s' pv,
    begin b (shared_pair 7) = Returns (pv, 0%nat) s' ∧
    end_ b (shared_pair 7) = Returns (pv, 1%nat) s' ∧
    begin b s' = Returns (pv, 0%nat) s' ∧
    end_ b s' = Returns (pv, 1%nat) s' ∧
    cbegin b s' = Returns (pv, 0%nat) s' ∧
    cend b s' = Returns (pv, 1%nat) s' ∧
    m_values <$> objects s' !! b = Some pv ∧
    ref_count s' b = Some 1 ∧
    (∀ x ox, x ≠ b → objects s' !! x = Some ox → m_values ox ≠ pv) ∧
    (∀ x, contents s' x = contents (shared_pair 7) x).
Proof.
  apply (mutable_range (shared_pair 7) b [7] ["a"]).
  - apply shared_pair_consistent.
  - apply shared_pair_bounded.
  - vm_compute. reflexivity.
Defined.

(* --------------------------------------------------------------------- *)
(* Lifetimes: construction, copy construction, destruction               *)
(* --------------------------------------------------------------------- *)

(** X7. Constructing a handle by default and destroying it again leaves
    the store exactly as it was: the three objects the constructor
    allocates are the three the destructor frees. *)
Theorem ctor_dtor_round_trip {T} (s : state T) (this : loc) :
  objects s !! this = None →
  (ctor this ;; dtor this) s = Returns tt s.
Proof.
  intros Hthis. unfold ctor, dtor. mrun.
  change (wrap (1 - 1)) with 0. simpl. repeat mstep.
  rewrite !delete_insert_eq.
  rewrite !delete_id by (done || apply fresh_lookup_None).
  by destruct s.
Qed.

Lemma ctor_dtor_round_trip_witness :
  (ctor 3%positive ;; dtor 3%positive) (shared_pair 7)
  = Returns tt (shared_pair 7).
Proof.
  apply (ctor_dtor_round_trip (shared_pair 7) 3%positive).
  vm_compute. reflexivity.
Defined.

(** X8. Copy-constructing a handle from a live one and destroying the
    copy leaves the store exactly as it was: the counter goes up and down
    by one and no vector is allocated, copied or freed. *)
Theorem copy_dtor_round_trip {T} (s : state T) (this other : loc)
    (o : MyVector) :
  consistent s → bounded s →
  objects s !! this = None → objects s !! other = Some o →
  (copy_ctor this other ;; dtor this) s = Returns tt s.
Proof.
  intros Hs Hb Hthis Hother.
  destruct (handle_counter s Hs other o Hother) as [c Hc].
  destruct (counter_bound s _ c Hs Hb Hc) as [Hlo Hhi].
  unfold copy_ctor, dtor. mrun. destruct o as [pv pn pc]. repeat mstep.
  rewrite (wrap_small (c + 1)) by lia.
  replace (c + 1 - 1) with c by lia. rewrite (wrap_small c) by lia.
  destruct (decide (c = 0)) as [->|_]; [lia |]. repeat mstep.
  rewrite delete_insert_eq, delete_id by done.
  rewrite insert_insert_eq, insert_id by done.
  by destruct s.
Qed.

Lemma copy_dtor_round_trip_witness :
  (copy_ctor 3%positive a ;; dtor 3%positive) (shared_pair 7)
  = Returns tt (shared_pair 7).
Proof.
  apply (copy_dtor_round_trip (shared_pair 7) 3%positive a (Obj p1 p1 p1)).
  - apply shared_pair_consistent.
  - apply shared_pair_bounded.
  - vm_compute. reflexivity.
  - vm_compute. reflexivity.
Defined.

(* The two const operator[] depend on the handle only through the three
   pointers it holds. *)
Lemma index_const_same_pointers {T} (s : state T) x y index :
  objects s !! x = objects s !! y →
  index_const x index s = index_const y index s.
Proof.
  intros Hx. destruct (objects s !! y) as [o|] eqn:Hy;
    [| unfold index_const; by mrun].
  destruct (value_vectors s !! m_values o) as [vs|] eqn:Hv;
    [| unfold index_const; by mrun].
  unfold index_const. mrun.
  destruct (Std.size vs <=? index)%nat; [done |]. repeat mstep.
  destruct (index <? Std.size vs)%nat; [| done]. repeat mstep.
  destruct (name_vectors s !! m_names o) as [ns|] eqn:Hn; by repeat mstep.
Qed.

Lemma name_const_same_pointers {T} (s : state T) x y name :
  objects s !! x = objects s !! y →
  name_const x name s = name_const y name s.
Proof.
  intros Hx. destruct (objects s !! y) as [o|] eqn:Hy;
    [| unfold name_const; by mrun].
  destruct (name_vectors s !! m_names o) as [ns|] eqn:Hn;
    [| unfold name_const; by mrun].
  unfold name_const. mrun.
  destruct (decide _); [done |]. by repeat mstep.
Qed.

(** X9. The copy constructor, at an address where no handle lives and
    from a live handle, returns; it allocates and copies no vector (the
    two heaps of vectors are unchanged), the new handle holds the source's
    three pointers, the shared counter is one more than before, and every
    const access through the copy has the very outcome it has through the
    source; every other handle reads what it read before. *)
Theorem copy_construction_aliases {T} (s : state T) (this other : loc)
    (o : MyVector) :
  consistent s → bounded s →
  objects s !! this = None → objects s !! other = Some o →
  ∃ s' c,
    copy_ctor this other s = Returns tt s' ∧
    consistent s' ∧
    value_vectors s' = value_vectors s ∧
    name_vectors s' = name_vectors s ∧
    objects s' !! this = Some o ∧
    objects s' !! other = Some o ∧
    ref_count s other = Some c ∧
    ref_count s' this = Some (c + 1) ∧
    ref_count s' other = Some (c + 1) ∧
    handles_on s' (m_ref_count o) = S (handles_on s (m_ref_count o)) ∧
    contents s' this = contents s other ∧
    (∀ index, index_const this index s' = index_const other index s') ∧
    (∀ name, name_const this name s' = name_const other name s') ∧
    (∀ x, x ≠ this → contents s' x = contents s x).
Proof.
  intros Hs Hb Hthis Hother.
  assert (Hne : this ≠ other) by (intros ->; congruence).
  destruct (copy_ctor_spec s this other o Hs Hb Hthis Hother)
    as (c & Hc & Hrun & Hs').
  destruct (share_block_contents s this other o c Hthis Hother)
    as [Hcthis Hcothers].
  exists (share_block s this o c), c.
  assert (Ho1 : objects (share_block s this o c) !! this = Some o)
    by (unfold share_block; cbn [objects]; by rewrite lookup_insert_eq).
  assert (Ho2 : objects (share_block s this o c) !! other = Some o)
    by (unfold share_block; cbn [objects]; by rewrite lookup_insert_ne).
  split_and!; try done.
  - unfold ref_count. by rewrite Hother.
  - unfold ref_count. rewrite Ho1. simpl. unfold share_block.
    cbn [counters]. by rewrite lookup_insert_eq.
  - unfold ref_count. rewrite Ho2. simpl. unfold share_block.
    cbn [counters]. by rewrite lookup_insert_eq.
  - unfold handles_on, share_block. cbn [objects].
    rewrite count_handles_insert_new by done. unfold hits.
    rewrite decide_True by done. lia.
  - intros index. apply index_const_same_pointers. by rewrite Ho1, Ho2.
  - intros name. apply name_const_same_pointers. by rewrite Ho1, Ho2.
Qed.

Lemma copy_construction_aliases_witness :
  ∃ s' c,
    copy_ctor b a (abc 1 2 3) = Returns tt s' ∧
    consistent s' ∧
    value_vectors s' = value_vectors (abc 1 2 3) ∧
    name_vectors s' = name_vectors (abc 1 2 3) ∧
    objects s' !! b = Some (Obj p1 p1 p1) ∧
    objects s' !! a = Some (Obj p1 p1 p1) ∧
    ref_count (abc 1 2 3) a = Some c ∧
    ref_count s' b = Some (c + 1) ∧
    ref_count s' a = Some (c + 1) ∧
    handles_on s' p1 = S (handles_on (abc 1 2 3) p1) ∧
    contents s' b = contents (abc 1 2 3) a ∧
    (∀ index, index_const b index s' = index_const a index s') ∧
    (∀ name, name_const b name s' = name_const a name s') ∧
    (∀ x, x ≠ b → contents s' x = contents (abc 1 2 3) x).
Proof.
  apply (copy_construction_aliases (abc 1 2 3) b a (Obj p1 p1 p1)).
  - apply abc_consistent.
  - apply abc_bounded.
  - vm_compute. reflexivity.
  - vm_compute. reflexivity.
Defined.

(** X10. In a consistent store (every live handle points to an allocated
    counter and two allocated vectors, every counter holds the number of
    live handles pointing to it, two handles share a vector exactly when
    they share the counter, and nothing is allocated that no handle points
    to; every store reached without the implicit operator= is one) with
    fewer live handles than a size_t can count,
    the destructor of a live handle returns, ends the handle's lifetime
    and leaves a consistent store; every other handle keeps its pointers
    and reads what it read before.  When the counter was 1 the three
    objects of the block are freed; when it was larger they stay, with
    the counter one lower. *)
Theorem destruction_spares_others {T} (s : state T) (this : loc)
    (o : MyVector) :
  consistent s → bounded s → objects s !! this = Some o →
  ∃ s' c,
    counters s !! m_ref_count o = Some c ∧
    dtor this s = Returns tt s' ∧
    consistent s' ∧
    objects s' !! this = None ∧
    (∀ x, x ≠ this →
       objects s' !! x = objects s !! x ∧ contents s' x = contents s x) ∧
    (c = 1 →
       counters s' !! m_ref_count o = None ∧
       value_vectors s' !! m_values o = None ∧
       name_vectors s' !! m_names o = None) ∧
    (c ≠ 1 →
       counters s' !! m_ref_count o = Some (c - 1) ∧
       value_vectors s' = value_vectors s ∧
       name_vectors s' = name_vectors s).
Proof.
  intros Hs Hb Hthis.
  destruct (dtor_spec s this o Hs Hb Hthis)
    as (c & Hc & [(-> & Hrun & Hs')|(Hlt & Hrun & Hs')]).
  - destruct (free_block_contents s this o Hs Hthis Hc) as [_ Hothers].
    exists (free_block s this o), 1.
    unfold free_block in *. cbn [objects value_vectors name_vectors counters].
    rewrite !lookup_delete_eq. split_and!; try done.
    intros x Hx. split; [by rewrite lookup_delete_ne | by apply Hothers].
  - destruct (leave_block_contents s this o c) as [_ Hothers].
    exists (leave_block s this o c), c.
    unfold leave_block in *. cbn [objects value_vectors name_vectors counters].
    rewrite lookup_delete_eq, lookup_insert_eq. split_and!; try done.
    + intros x Hx. split; [by rewrite lookup_delete_ne | by apply Hothers].
    + lia.
Qed.

Lemma destruction_spares_others_witness :
  ∃ s' c,
    counters (shared_pair 7) !! p1 = Some c ∧
    dtor a (shared_pair 7) = Returns tt s' ∧
    consistent s' ∧
    objects s' !! a = None ∧
    (∀ x, x ≠ a →
       objects s' !! x = objects (shared_pair 7) !! x ∧
       contents s' x = contents (shared_pair 7) x) ∧
    (c = 1 →
       counters s' !! p1 = None ∧
       value_vectors s' !! p1 = None ∧
       name_vectors s' !! p1 = None) ∧
    (c ≠ 1 →
       counters s' !! p1 = Some (c - 1) ∧
       value_vectors s' = value_vectors (shared_pair 7) ∧
       name_vectors s' = name_vectors (shared_pair 7)).
Proof.
  apply (destruction_spares_others (shared_pair 7) a (Obj p1 p1 p1)).
  - apply shared_pair_consistent.
  - apply shared_pair_bounded.
  - vm_compute. reflexivity.
Defined.

(* --------------------------------------------------------------------- *)
(* What holds in every store the member functions reach                  *)
(* --------------------------------------------------------------------- *)

(** X11. In every store reached from the empty one by the constructors,
    the destructor and the other member functions (the implicit operator=
    apart): every live handle points to an allocated counter and two
    allocated vectors of the same length; the counter holds the number of
    live handles that point to it, which is at least 1; two handles share
    a vector exactly when they share the counter; and every allocated
    counter and vector has a live handle pointing to it. *)
Theorem reference_count_invariant {T} grow lim (s : state T) :
  reachable grow lim s →
  (∀ x o, objects s !! x = Some o →
     ∃ c vs ns,
       counters s !! m_ref_count o = Some c ∧
       c = Z.of_nat (handles_on s (m_ref_count o)) ∧
       1 ≤ c ∧
       value_vectors s !! m_values o = Some vs ∧
       name_vectors s !! m_names o = Some ns ∧
       length (Std.elems vs) = length (Std.elems ns)) ∧
  (∀ x y ox oy,
     objects s !! x = Some ox → objects s !! y = Some oy →
     (m_values ox = m_values oy ↔ m_ref_count ox = m_ref_count oy) ∧
     (m_names ox = m_names oy ↔ m_ref_count ox = m_ref_count oy)) ∧
  (∀ pc, is_Some (counters s !! pc) →
     ∃ x o, objects s !! x = Some o ∧ m_ref_count o = pc) ∧
  (∀ p, is_Some (value_vectors s !! p) →
     ∃ x o, objects s !! x = Some o ∧ m_values o = p) ∧
  (∀ p, is_Some (name_vectors s !! p) →
     ∃ x o, objects s !! x = Some o ∧ m_names o = p).
Proof.
  intros Hr.
  pose proof (reachable_consistent grow lim s Hr) as Hs.
  pose proof (reachable_paired grow lim s Hr) as Hp.
  split_and!.
  - intros x o Hx.
    destruct (handle_counter s Hs x o Hx) as [c Hc].
    destruct (handle_values s Hs x o Hx) as [vs Hv].
    destruct (handle_names s Hs x o Hx) as [ns Hn].
    exists c, vs, ns. split_and!; try done.
    + by apply (counted s Hs).
    + pose proof (counter_used s Hs _ c Hc). lia.
    + apply (Hp x). unfold contents. rewrite Hx. simpl. by rewrite Hv, Hn.
  - intros x y ox oy Hx Hy. split.
    + by apply (same_values s Hs x y).
    + by apply (same_names s Hs x y).
  - intros pc [c Hc].
    apply count_handles_some.
    pose proof (counted s Hs pc c Hc) as Hn.
    pose proof (counter_used s Hs pc c Hc). unfold handles_on in Hn. lia.
  - apply (values_used s Hs).
  - apply (names_used s Hs).
Qed.

Lemma reference_count_invariant_witness :
  ∃ c vs ns,
    counters (shared_pair 7) !! p1 = Some c ∧
    c = Z.of_nat (handles_on (shared_pair 7) p1) ∧
    1 ≤ c ∧
    value_vectors (shared_pair 7) !! p1 = Some vs ∧
    name_vectors (shared_pair 7) !! p1 = Some ns ∧
    length (Std.elems vs) = length (Std.elems ns).
Proof.
  destruct (reference_count_invariant doubling small (shared_pair 7)
              (shared_pair_reachable small 7)) as [H _].
  apply (H b (Obj p1 p1 p1)). vm_compute. reflexivity.
Defined.

(** X12. Nothing leaks: in a store reached by the member functions in
    which no handle is alive any more, no counter and no vector is
    allocated; the store is the empty one. *)
Theorem all_destroyed_nothing_left {T} grow lim (s : state T) :
  reachable grow lim s → objects s = ∅ → s = initial_state.
Proof.
  intros Hr Hobj. pose proof (reachable_consistent grow lim s Hr) as Hs.
  assert (Hv : value_vectors s = ∅).
  { apply map_empty. intros p.
    destruct (value_vectors s !! p) as [v|] eqn:E; [| done].
    destruct (values_used s Hs p) as (x & o & Hx & _); [eauto |].
    by rewrite Hobj, lookup_empty in Hx. }
  assert (Hn : name_vectors s = ∅).
  { apply map_empty. intros p.
    destruct (name_vectors s !! p) as [v|] eqn:E; [| done].
    destruct (names_used s Hs p) as (x & o & Hx & _); [eauto |].
    by rewrite Hobj, lookup_empty in Hx. }
  assert (Hc : counters s = ∅).
  { apply map_empty. intros p.
    destruct (counters s !! p) as [c|] eqn:E; [| done].
    pose proof (counted s Hs p c E) as Hk.
    pose proof (counter_used s Hs p c E).
    unfold handles_on in Hk. rewrite Hobj, count_handles_empty in Hk. lia. }
  destruct s as [ob vv nv cs]. simpl in *. subst. reflexivity.
Qed.

Lemma all_destroyed_nothing_left_witness :
  ∃ s' : state Z,
    run_calls doubling small [Destroy a; Destroy b] (shared_pair 7) = Some s' ∧
    s' = initial_state.
Proof.
  eexists. split; [vm_compute; reflexivity |].
  apply (all_destroyed_nothing_left doubling small).
  - apply (run_calls_reachable doubling small [Destroy a; Destroy b]
             (shared_pair 7)); [apply shared_pair_reachable |].
    vm_compute. reflexivity.
  - vm_compute. reflexivity.
Defined.

(** X13. In every store the member functions reach, the const positional
    access with an index below size() returns, without changing the
    store, a pair of references that read the value and the name stored
    at that index. *)
Theorem index_const_in_range {T} grow lim (s : state T) (this : loc)
    (values : list T) (names : list string) (index : nat) :
  reachable grow lim s →
  contents s this = Some (values, names) →
  (index < length values)%nat →
  ∃ r n v nm,
    index_const this index s = Returns (r, n) s ∧
    values !! index = Some v ∧ names !! index = Some nm ∧
    read_value s r = Some v ∧ read_name s n = Some nm.
Proof.
  intros Hr Hc Hi.
  pose proof (reachable_paired grow lim s Hr this values names Hc) as Hlen.
  destruct (index_const_of_contents s this values names index Hc)
    as (r & n & Hrun & Hv & Hn); [lia .. |].
  destruct (lookup_lt_is_Some_2 values index) as [v Hvi]; [lia |].
  destruct (lookup_lt_is_Some_2 names index) as [nm Hni]; [lia |].
  exists r, n, v, nm. by rewrite Hv, Hn.
Qed.

Lemma index_const_in_range_witness :
  ∃ r n v nm,
    index_const a 2 (abc 1 2 3) = Returns (r, n) (abc 1 2 3) ∧
    [1; 2; 3] !! 2%nat = Some v ∧ ["a"; "b"; "a"] !! 2%nat = Some nm ∧
    read_value (abc 1 2 3) r = Some v ∧ read_name (abc 1 2 3) n = Some nm.
Proof.
  apply (index_const_in_range doubling small (abc 1 2 3) a).
  - apply abc_reachable.
  - vm_compute. reflexivity.
  - simpl. lia.
Defined.

(* --------------------------------------------------------------------- *)
(* Copy-on-write for the calls that detach                               *)
(* --------------------------------------------------------------------- *)

(** X14. In a consistent store (every live handle points to an allocated
    counter and two allocated vectors, every counter holds the number of
    live handles pointing to it, two handles share a vector exactly when
    they share the counter, and nothing is allocated that no handle points
    to; every store reached without the implicit operator= is one) with
    fewer live handles than a size_t can count,
    assigning a name through the second reference that the non-const
    positional access returns, for an index within range on a live handle
    whose two vectors have the same length, replaces the name at that
    index for this handle only: the store is consistent afterwards, the
    handle owns its block alone, its values and its other names are as
    before, and every other handle, also one that shared the block, reads
    what it read before. *)
Theorem rename_through_index {T} (s : state T) (this : loc)
    (values : list T) (names : list string) (index : nat) (name' : string) :
  consistent s → bounded s →
  contents s this = Some (values, names) →
  length values = length names →
  (index < length values)%nat →
  ∃ s',
    (p <- index_mut this index ;; assign_name p.2 name') s = Returns tt s' ∧
    contents s' this = Some (values, <[index := name']> names) ∧
    ref_count s' this = Some 1 ∧
    consistent s' ∧
    ∀ x, x ≠ this → contents s' x = contents s x.
Proof.
  intros Hs Hb Hc Hlen Hi.
  destruct (contents_Some s this values names Hc)
    as (o & vs & ns & Ho & Hv & Hn & Hev & Hen).
  destruct (detach_post s this o Hs Hb Ho)
    as (s1 & o1 & vs0 & vs1 & ns0 & ns1 & Hd & Hs1 & Hsz & Hv0 & Hn0 & Ho1
        & Hc1 & Hv1 & Hn1 & Hev1 & Hen1 & Hobj & Hblk).
  assert (vs0 = vs) by congruence. assert (ns0 = ns) by congruence.
  subst vs0 ns0.
  destruct (index_mut_in_range s this o vs ns index Hs Hb Ho Hv Hn)
    as (s2 & o2 & Hrun & Hd2 & Ho2 & _ & _);
    [rewrite Hev; lia | rewrite Hev, Hen; lia |].
  assert (s2 = s1) by congruence. subst s2.
  assert (o2 = o1) by congruence. subst o2.
  destruct (update_block s1 this o1 vs1 ns1 vs1
              (Std.Vec (<[index := name']> (Std.elems ns1)) (Std.capacity ns1))
              Hs1 Ho1 Hc1 Hv1 Hn1) as (Hs' & Hthis' & Hothers).
  rewrite (insert_id (value_vectors s1)) in Hs', Hthis', Hothers by done.
  eexists. split.
  { assert (Hlt : (index < length (Std.elems ns1))%nat)
      by (rewrite Hen1, Hen; lia).
    unfold bind at 1. rewrite Hrun. cbn [snd]. unfold assign_name. mrun.
    unfold Std.size.
    destruct (Nat.ltb_spec index (length (Std.elems ns1))); [| lia].
    repeat mstep. reflexivity. }
  split.
  { rewrite Hthis'. simpl. by rewrite Hev1, Hen1, Hev, Hen. }
  split; [unfold ref_count; cbn [objects counters]; by rewrite Ho1 |].
  split; [done |].
  intros x Hx. rewrite (Hothers x Hx).
  apply contents_unchanged; [by apply Hobj | apply Hblk].
Qed.

Lemma rename_through_index_witness :
  ∃ s',
    (p <- index_mut b 0 ;; assign_name p.2 "z") (shared_pair 7)
    = Returns tt s' ∧
    contents s' b = Some ([7], <[0%nat := "z"]> ["a"]) ∧
    ref_count s' b = Some 1 ∧
    consistent s' ∧
    ∀ x, x ≠ b → contents s' x = contents (shared_pair 7) x.
Proof.
  apply (rename_through_index (shared_pair 7) b [7] ["a"] 0 "z").
  - apply shared_pair_consistent.
  - apply shared_pair_bounded.
  - vm_compute. reflexivity.
  - reflexivity.
  - simpl. lia.
Defined.

(** X15. In a consistent store (every live handle points to an allocated
    counter and two allocated vectors, every counter holds the number of
    live handles pointing to it, two handles share a vector exactly when
    they share the counter, and nothing is allocated that no handle points
    to; every store reached without the implicit operator= is one) with
    fewer live handles than a size_t can count,
    on a live handle whose two vectors have the same length, every call
    that detaches returns: push_back, clear, begin,
    end, and the non-const positional access with an index below size().
    The non-const positional access with an index at or past size()
    throws out_of_range and leaves the store as it was.  After each call
    that returns, the store is consistent, the handle owns its block
    alone (counter 1) and reads its entries as the call made them (one
    more at the end, none, or the same), and every other handle, whatever
    it shared with this one, reads what it read before. *)
Theorem mutation_leaves_others {T} grow (s : state T) (this : loc)
    (values : list T) (names : list string) :
  consistent s → bounded s →
  contents s this = Some (values, names) →
  length values = length names →
  (∀ value name, ∃ s',
     push_back grow this value name s = Returns tt s' ∧
     contents s' this = Some (values ++ [value], names ++ [name]) ∧
     consistent s' ∧ ref_count s' this = Some 1 ∧
     ∀ x, x ≠ this → contents s' x = contents s x) ∧
  (∃ s',
     clear this s = Returns tt s' ∧
     contents s' this = Some ([], []) ∧
     consistent s' ∧ ref_count s' this = Some 1 ∧
     ∀ x, x ≠ this → contents s' x = contents s x) ∧
  (∀ index, (index < length values)%nat → ∃ r s',
     index_mut this index s = Returns r s' ∧
     contents s' this = Some (values, names) ∧
     consistent s' ∧ ref_count s' this = Some 1 ∧
     ∀ x, x ≠ this → contents s' x = contents s x) ∧
  (∀ index, (length values ≤ index)%nat →
     index_mut this index s
     = Throws (out_of_range "Index is out of range") s) ∧
  (∃ it s',
     begin this s = Returns it s' ∧
     contents s' this = Some (values, names) ∧
     consistent s' ∧ ref_count s' this = Some 1 ∧
     ∀ x, x ≠ this → contents s' x = contents s x) ∧
  (∃ it s',
     end_ this s = Returns it s' ∧
     contents s' this = Some (values, names) ∧
     consistent s' ∧ ref_count s' this = Some 1 ∧
     ∀ x, x ≠ this → contents s' x = contents s x).
Proof.
  intros Hs Hb Hc Hlen.
  destruct (contents_Some s this values names Hc)
    as (o & vs & ns & Ho & Hv & Hn & Hev & Hen).
  destruct (detach_post s this o Hs Hb Ho)
    as (s1 & o1 & vs0 & vs1 & ns0 & ns1 & Hd & Hs1 & Hsz & Hv0 & Hn0 & Ho1
        & Hc1 & Hv1 & Hn1 & Hev1 & Hen1 & Hobj & Hblk).
  assert (vs0 = vs) by congruence. assert (ns0 = ns) by congruence.
  subst vs0 ns0.
  assert (Hc1' : contents s1 this = Some (values, names)).
  { unfold contents. rewrite Ho1. simpl. rewrite Hv1, Hn1. simpl.
    by rewrite Hev1, Hen1, Hev, Hen. }
  assert (Hrc1 : ref_count s1 this = Some 1)
    by (unfold ref_count; by rewrite Ho1).
  assert (Hothers1 : ∀ x, x ≠ this → contents s1 x = contents s x).
  { intros x Hx. apply contents_unchanged; [by apply Hobj | apply Hblk]. }
  split_and!.
  - intros value name.
    destruct (push_back_runs grow s this values names value name Hs Hb Hc)
      as (s' & Hrun & Hs' & Hc' & Hrc & Hothers).
    by exists s'.
  - destruct (clear_runs s this values names Hs Hb Hc)
      as (s' & Hrun & Hs' & Hc' & Hrc & Hothers).
    by exists s'.
  - intros index Hi.
    destruct (index_mut_in_range s this o vs ns index Hs Hb Ho Hv Hn)
      as (s2 & o2 & Hrun & Hd2 & _);
      [rewrite Hev; lia | rewrite Hev, Hen; lia |].
    assert (s2 = s1) by congruence. subst s2.
    by eexists _, s1.
  - intros index Hi. by apply (index_mut_past_end s this values names).
  - exists (m_values o1, 0%nat), s1. split; [| done].
    unfold begin. unfold_prims. rewrite Hd. by repeat mstep.
  - exists (m_values o1, Std.size vs1), s1. split; [| done].
    unfold end_. unfold_prims. rewrite Hd. by repeat mstep.
Qed.

Lemma mutation_leaves_others_witness :
  (∀ value name, ∃ s',
     push_back doubling b value name (shared_pair 7) = Returns tt s' ∧
     contents s' b = Some ([7] ++ [value], ["a"] ++ [name]) ∧
     consistent s' ∧ ref_count s' b = Some 1 ∧
     ∀ x, x ≠ b → contents s' x = contents (shared_pair 7) x) ∧
  (∃ s',
     clear b (shared_pair 7) = Returns tt s' ∧
     contents s' b = Some ([], []) ∧
     consistent s' ∧ ref_count s' b = Some 1 ∧
     ∀ x, x ≠ b → contents s' x = contents (shared_pair 7) x) ∧
  (∀ index, (index < length [7])%nat → ∃ r s',
     index_mut b index (shared_pair 7) = Returns r s' ∧
     contents s' b = Some ([7], ["a"]) ∧
     consistent s' ∧ ref_count s' b = Some 1 ∧
     ∀ x, x ≠ b → contents s' x = contents (shared_pair 7) x) ∧
  (∀ index, (length [7] ≤ index)%nat →
     index_mut b index (shared_pair 7)
     = Throws (out_of_range "Index is out of range") (shared_pair 7)) ∧
  (∃ it s',
     begin b (shared_pair 7) = Returns it s' ∧
     contents s' b = Some ([7], ["a"]) ∧
     consistent s' ∧ ref_count s' b = Some 1 ∧
     ∀ x, x ≠ b → contents s' x = contents (shared_pair 7) x) ∧
  (∃ it s',
     end_ b (shared_pair 7) = Returns it s' ∧
     contents s' b = Some ([7], ["a"]) ∧
     consistent s' ∧ ref_count s' b = Some 1 ∧
     ∀ x, x ≠ b → contents s' x = contents (shared_pair 7) x).
Proof.
  apply (mutation_leaves_others doubling (shared_pair 7) b [7] ["a"]).
  - apply shared_pair_consistent.
  - apply shared_pair_bounded.
  - vm_compute. reflexivity.
  - reflexivity.
Defined.

(* --------------------------------------------------------------------- *)
(* reserve                                                               *)
(* --------------------------------------------------------------------- *)

(** X16. reserve(n) on a live handle whose two vectors are allocated has
    three outcomes.  With n within max_size() of both vectors it returns
    and both vectors of the handle's block have capacity at least n.  With n beyond max_size() of
    the vector of values it throws length_error and leaves the store as
    it was.  With n within max_size() of the vector of values and beyond
    that of the vector of names it throws length_error after the capacity
    of the vector of values has been raised to at least n, the vector of
    names being as it was.  In each case every handle keeps its pointers,
    every counter keeps its value, and every handle reads the values and
    names it read before. *)
Theorem reserve_outcomes {T} lim (s : state T) (this : loc) (o : MyVector)
    (vs : Std.vector T) (ns : Std.vector string) (n : nat) :
  objects s !! this = Some o →
  value_vectors s !! m_values o = Some vs →
  name_vectors s !! m_names o = Some ns →
  ((n ≤ Std.max_size_values lim)%nat → (n ≤ Std.max_size_names lim)%nat →
   ∃ s' vs' ns',
     reserve lim this n s = Returns tt s' ∧
     value_vectors s' !! m_values o = Some vs' ∧
     name_vectors s' !! m_names o = Some ns' ∧
     (n ≤ Std.capacity vs')%nat ∧ (n ≤ Std.capacity ns')%nat ∧
     objects s' = objects s ∧ counters s' = counters s ∧
     ∀ x, contents s' x = contents s x) ∧
  ((Std.max_size_values lim < n)%nat →
   reserve lim this n s = Throws (length_error (Std.reserve_what lim)) s) ∧
  ((n ≤ Std.max_size_values lim)%nat → (Std.max_size_names lim < n)%nat →
   ∃ s' vs',
     reserve lim this n s = Throws (length_error (Std.reserve_what lim)) s' ∧
     value_vectors s' !! m_values o = Some vs' ∧
     (n ≤ Std.capacity vs')%nat ∧
     name_vectors s' = name_vectors s ∧
     objects s' = objects s ∧ counters s' = counters s ∧
     ∀ x, contents s' x = contents s x).
Proof.
  intros Ho Hv Hn.
  assert (Hcap : ∀ A (v : Std.vector A),
            (n ≤ Std.capacity (Std.with_capacity v n))%nat).
  { intros A v. unfold Std.with_capacity. simpl.
    destruct (Nat.ltb_spec (Std.capacity v) n); lia. }
  split_and!.
  - intros Hmv Hmn.
    eexists _, (Std.with_capacity vs n), (Std.with_capacity ns n).
    split; [by apply (reserve_runs lim s this o vs ns) |].
    cbn [objects value_vectors name_vectors counters].
    rewrite !lookup_insert_eq. split_and!; try done.
    intros x. by apply reserve_contents.
  - intros Hmv. by apply (reserve_throws_at_values lim s this o vs).
  - intros Hmv Hmn.
    eexists _, (Std.with_capacity vs n).
    split; [by apply (reserve_throws_at_names lim s this o vs ns) |].
    cbn [objects value_vectors name_vectors counters].
    rewrite !lookup_insert_eq. split_and!; try done.
    intros x. by apply (reserve_values_contents s o vs).
Qed.

Lemma reserve_outcomes_witness :
  ∃ s' vs' ns',
    reserve small b 10 (shared_pair 7) = Returns tt s' ∧
    value_vectors s' !! p1 = Some vs' ∧
    name_vectors s' !! p1 = Some ns' ∧
    (10 ≤ Std.capacity vs')%nat ∧ (10 ≤ Std.capacity ns')%nat ∧
    objects s' = objects (shared_pair 7) ∧
    counters s' = counters (shared_pair 7) ∧
    ∀ x, contents s' x = contents (shared_pair 7) x.
Proof.
  destruct (reserve_outcomes small (shared_pair 7) b (Obj p1 p1 p1)
              (Std.Vec [7] 1) (Std.Vec ["a"] 1) 10) as [H _];
    [vm_compute; reflexivity .. |].
  apply H; simpl; lia.
Defined.

(* The same call on a library whose vector of names holds at most a
   hundred elements, asked for five hundred: it throws after the vector
   of values, which [a] reads as well, has been given capacity 500. *)
Lemma reserve_throws_half_done :
  reserve (Std.Limits 1000 100 "vector::reserve") b 500 (shared_pair 7)
  = Throws (length_error "vector::reserve")
      (State {[ a := Obj p1 p1 p1; b := Obj p1 p1 p1 ]}
             {[ p1 := Std.Vec [7] 500 ]}
             {[ p1 := Std.Vec ["a"] 1 ]}
             {[ p1 := 2 ]}).
Proof. vm_compute. reflexivity. Qed.

